(** * Benthos: the Amazon S3 reader, the decompress processor and two input
      constructors

    A shallow embedding of
    - [lib/input/reader/amazon_s3.go] (package [reader]): the [AmazonS3]
      reader with its [Connect], [Read], [Acknowledge] operations,
    - the [decompress] processor (package [processor]),
    - [lib/input/nsq.go] and [lib/input/redis_list.go] (package [input]).

    Calls that leave the process (AWS requests, the wall clock) are answered
    by an oracle [Aws]; the requests issued are recorded, oldest first, in the
    [trace] of a [World].  Pure library functions the code calls but does not
    define (JSON decoding, duration parsing, time formatting) are the fields
    of a record [Lib].  Logging and metrics are not modelled. *)

From Stdlib Require Import List ZArith Bool String Ascii Lia Arith.
Import ListNotations.

Local Open Scope string_scope.
Local Open Scope list_scope.
Local Open Scope Z_scope.

Set Implicit Arguments.
Set Warnings "-register-all".

(** ** Go values *)

(** A Go [[]byte]. *)
Definition bytes := list Byte.byte.

(** Go's [int] on a 64-bit platform: arithmetic wraps around. *)
Definition int_wrap (z : Z) : Z := (z + 2 ^ 63) mod 2 ^ 64 - 2 ^ 63.

(** [len(s)] of a Go string or slice is never negative and used here only in
    comparisons, so it is kept as a [nat]. *)
Definition len_str (s : string) : nat := String.length s.

(** [strings.Split(s, sep)] for a separator of one character. *)
Fixpoint Split (s : string) (sep : ascii) : list string :=
  match s with
  | EmptyString => [EmptyString]
  | String c rest =>
      if Ascii.eqb c sep then EmptyString :: Split rest sep
      else match Split rest sep with
           | hd :: tl => String c hd :: tl
           | [] => [String c EmptyString]
           end
  end.

(** [strings.HasPrefix(s, prefix)]. *)
Definition HasPrefix (s prefix : string) : bool := String.prefix prefix s.

(** The arguments of a [fmt.Errorf], kept unformatted. *)
Inductive Arg (E : Type) : Type :=
| ArgStr (s : string)
| ArgInt (z : Z)
| ArgErr (e : E).
Arguments ArgStr {E} s.
Arguments ArgInt {E} z.
Arguments ArgErr {E} e.

(** Go's [error] values: the sentinels of package [types], an error handed
    back by a library or by AWS, and the errors built with [fmt.Errorf]. *)
Inductive error : Type :=
| ErrNotConnected
| ErrTimeout
| ErrTypeClosed
| ErrLib (msg : string)
| Errorf (format : string) (args : list (Arg error)).

(** What a call can do: return, panic (a nil pointer dereference), or not come
    back within the fuel a loop was given. *)
Inductive Outcome (A : Type) : Type :=
| Returns (x : A)
| Panics
| Diverges.
Arguments Returns {A} x.
Arguments Panics {A}.
Arguments Diverges {A}.

(** ** Messages (package [message]) *)

Record Part := mkPart {
  payload : bytes;
  metadata : list (string * string)
}.

(** [Metadata().Set(k, v)]: replaces the value of [k], or adds the pair. *)
Fixpoint meta_Set (k v : string) (m : list (string * string)) : list (string * string) :=
  match m with
  | [] => [(k, v)]
  | (k', v') :: rest =>
      if String.eqb k k' then (k, v) :: rest else (k', v') :: meta_Set k v rest
  end.

Definition Part_Set (k v : string) (p : Part) : Part :=
  mkPart (payload p) (meta_Set k v (metadata p)).

(** [message.NewPart(data)]. *)
Definition NewPart (data : bytes) : Part := mkPart data [].

Record Message := mkMessage { parts : list Part }.

(** [message.New(nil)]. *)
Definition Message_New : Message := mkMessage [].
Definition Message_Len (m : Message) : Z := Z.of_nat (List.length (parts m)).
Definition Message_Append (m : Message) (p : Part) : Message := mkMessage (parts m ++ [p]).

(** ** Decoded JSON ([interface{}] as [encoding/json] produces it) *)

Inductive Value : Type :=
| VNil
| VBool (b : bool)
| VNum (literal : string)
| VStr (s : string)
| VArr (elems : list Value)
| VMap (fields : list (string * Value)).

(** ** AWS data *)

(** [sqs.DeleteMessageBatchRequestEntry]. *)
Record Entry := mkEntry {
  Id : option string;
  ReceiptHandle : option string
}.

(** [sqs.Message], the fields the reader looks at. *)
Record SQSMessage := mkSQSMessage {
  MessageId : option string;
  MsgReceiptHandle : option string;
  Body : option string
}.

(** [s3.GetObjectOutput]; [ObjBody] is what [ioutil.ReadAll(obj.Body)] gives,
    [LastModified] is in Unix seconds. *)
Record GetObjectOutput := mkGetObjectOutput {
  ObjBody : error + bytes;
  ObjMetadata : list (string * string);
  LastModified : option Z;
  ContentType : option string
}.

Record Session := mkSession { session_id : nat }.
Record S3 := s3_New { s3_session : Session }.
Record Downloader := NewDownloader { downloader_session : Session }.
Record SQS := sqs_New { sqs_session : Session }.

(** The requests that leave the process. *)
Inductive Event : Type :=
| EvGetSession
| EvListObjectsPages (bucket : string) (prefix : option string)
| EvGetObject (bucket key : string)
| EvDownload (bucket key : string)
| EvDeleteObject (bucket key : string)
| EvReceiveMessage (url : string) (maxMessages waitSeconds : Z)
| EvDeleteMessageBatch (url : string) (entries : list Entry).

(** The answers of the outside world.  The first argument is the number of
    consultations made before this one, so that the same request can be
    answered differently at different times. *)
Record Aws := mkAws {
  GetSession : nat -> error + Session;
  (* the pages handed to the callback, and the error returned at the end *)
  ListObjectsPages : nat -> string -> option string -> list (list string) * option error;
  GetObject : nat -> string -> string -> error + GetObjectOutput;
  Download : nat -> string -> string -> error + bytes;
  ReceiveMessage : nat -> string -> Z -> Z -> error + list SQSMessage;
  (* [time.Now()], in nanoseconds *)
  Now : nat -> Z
}.

(** Library functions used by the code and defined outside the repository. *)
Record Lib := mkLib {
  (* time.ParseDuration, in nanoseconds *)
  ParseDuration : string -> error + Z;
  (* gabs.ParseJSON([]byte(s)) *)
  ParseJSON : string -> error + Value;
  (* json.Unmarshal([]byte(s), &v) *)
  Unmarshal : string -> error + Value;
  (* gObj.S(path...).Data(); [VNil] when the path leads nowhere *)
  Search : Value -> list string -> Value;
  (* t.Format(time.RFC3339) *)
  FormatRFC3339 : Z -> string;
  (* strconv.FormatInt(n, 10) *)
  FormatInt : Z -> string
}.

Record World := mkWorld {
  tick : nat;
  trace : list Event
}.

(** ** The reader's configuration and state *)

Record AmazonS3Config := mkAmazonS3Config {
  Bucket : string;
  Prefix : string;
  Retries : Z;
  DownloadManager_Enabled : bool;
  DeleteObjects : bool;
  SQSURL : string;
  SQSBodyPath : string;
  SQSBucketPath : string;
  SQSEnvelopePath : string;
  SQSMaxMessages : Z;
  MaxBatchCount : Z;
  Timeout : string
}.

Definition NewAmazonS3Config : AmazonS3Config :=
  {| Bucket := "";
     Prefix := "";
     Retries := 3;
     DownloadManager_Enabled := true;
     DeleteObjects := false;
     SQSURL := "";
     SQSBodyPath := "Records.s3.object.key";
     SQSBucketPath := "";
     SQSEnvelopePath := "";
     SQSMaxMessages := 10;
     MaxBatchCount := 1;
     Timeout := "5s" |}.

Record objKey := mkObjKey {
  s3Key : string;
  s3Bucket : string;
  attempts : Z;
  sqsHandle : option Entry
}.

(** The two values [readMethod] can hold. *)
Inductive ReadMethod := method_readFromMgr | method_read.

Record AmazonS3 := mkAmazonS3 {
  conf : AmazonS3Config;
  sqsBodyPath : list string;
  sqsEnvPath : list string;
  sqsBucketPath : list string;
  readKeys : list objKey;
  targetKeys : list objKey;
  readMethod : ReadMethod;
  session : option Session;
  s3 : option S3;
  downloader : option Downloader;
  sqs : option SQS;
  timeout : Z
}.

Definition set_targetKeys (tks : list objKey) (a : AmazonS3) : AmazonS3 :=
  mkAmazonS3 (conf a) (sqsBodyPath a) (sqsEnvPath a) (sqsBucketPath a)
    (readKeys a) tks (readMethod a) (session a) (s3 a) (downloader a) (sqs a) (timeout a).

Definition set_readKeys (rks : list objKey) (a : AmazonS3) : AmazonS3 :=
  mkAmazonS3 (conf a) (sqsBodyPath a) (sqsEnvPath a) (sqsBucketPath a)
    rks (targetKeys a) (readMethod a) (session a) (s3 a) (downloader a) (sqs a) (timeout a).

Definition set_sqs (q : option SQS) (a : AmazonS3) : AmazonS3 :=
  mkAmazonS3 (conf a) (sqsBodyPath a) (sqsEnvPath a) (sqsBucketPath a)
    (readKeys a) (targetKeys a) (readMethod a) (session a) (s3 a) (downloader a) q (timeout a).

(** The last three assignments of [Connect]. *)
Definition set_connected (sess : Session) (dler : Downloader) (sThree : S3) (a : AmazonS3) : AmazonS3 :=
  mkAmazonS3 (conf a) (sqsBodyPath a) (sqsEnvPath a) (sqsBucketPath a)
    (readKeys a) (targetKeys a) (readMethod a) (Some sess) (Some sThree) (Some dler) (sqs a) (timeout a).

Definition set_attempts (n : Z) (k : objKey) : objKey :=
  mkObjKey (s3Key k) (s3Bucket k) n (sqsHandle k).

Definition set_sqsHandle (h : option Entry) (k : objKey) : objKey :=
  mkObjKey (s3Key k) (s3Bucket k) (attempts k) h.

(** [bucket := a.conf.Bucket; if len(key.s3Bucket) > 0 { bucket = key.s3Bucket }]. *)
Definition bucket_of (c : AmazonS3Config) (k : objKey) : string :=
  if Nat.ltb 0 (len_str (s3Bucket k)) then s3Bucket k else Bucket c.

(** ** Talking to the outside world *)

Definition emit (e : Event) (w : World) : World :=
  mkWorld (S (tick w)) (trace w ++ [e]).

(** Reading the clock is a consultation but not a request. *)
Definition clock_read (w : World) : World := mkWorld (S (tick w)) (trace w).

Section Reader.

Variable lib : Lib.
Variable aws : Aws.

(** ** [NewAmazonS3] *)

Definition NewAmazonS3 (c : AmazonS3Config) : error + AmazonS3 :=
  let path := if Nat.ltb 0 (len_str (SQSBodyPath c)) then Split (SQSBodyPath c) "." else [] in
  let bucketPath := if Nat.ltb 0 (len_str (SQSBucketPath c)) then Split (SQSBucketPath c) "." else [] in
  let envPath := if Nat.ltb 0 (len_str (SQSEnvelopePath c)) then Split (SQSEnvelopePath c) "." else [] in
  match (if Nat.ltb 0 (len_str (Timeout c)) then ParseDuration lib (Timeout c) else inr 0) with
  | inl err => inl (Errorf "failed to parse timeout string: %v" [ArgErr err])
  | inr tout =>
      if MaxBatchCount c <? 1 then
        inl (Errorf "max_batch_count '%v' must be > 0" [ArgInt (MaxBatchCount c)])
      else
        inr {| conf := c;
               sqsBodyPath := path;
               sqsEnvPath := envPath;
               sqsBucketPath := bucketPath;
               readKeys := [];
               targetKeys := [];
               readMethod := if DownloadManager_Enabled c then method_readFromMgr else method_read;
               session := None;
               s3 := None;
               downloader := None;
               sqs := None;
               timeout := tout |}
  end.

(** ** [Connect] *)

Definition Connect (a : AmazonS3) (w : World) : Outcome (option error * AmazonS3 * World) :=
  match session a with
  | Some _ => Returns (None, a, w)
  | None =>
      let w1 := emit EvGetSession w in
      match GetSession aws (tick w) with
      | inl err => Returns (Some err, a, w1)
      | inr sess =>
          let sThree := s3_New sess in
          let dler := NewDownloader sess in
          if Nat.eqb (len_str (SQSURL (conf a))) 0 then
            let prefix := if Nat.ltb 0 (len_str (Prefix (conf a)))
                          then Some (Prefix (conf a)) else None in
            let w2 := emit (EvListObjectsPages (Bucket (conf a)) prefix) w1 in
            let '(pages, err) := ListObjectsPages aws (tick w1) (Bucket (conf a)) prefix in
            (* the callback runs on every page handed over, also when the
               listing fails afterwards *)
            let a1 := set_targetKeys
                        (targetKeys a ++
                         map (fun key => mkObjKey key "" (Retries (conf a)) None) (List.concat pages)) a in
            match err with
            | Some e => Returns (Some (Errorf "failed to list objects: %v" [ArgErr e]), a1, w2)
            | None => Returns (None, set_connected sess dler sThree a1, w2)
            end
          else
            Returns (None, set_connected sess dler sThree (set_sqs (Some (sqs_New sess)) a), w1)
      end
  end.

(** ** [popTargetKey] *)

Definition popTargetKey (a : AmazonS3) : AmazonS3 :=
  match targetKeys a with
  | [] => a
  | target :: rest => set_readKeys (readKeys a ++ [target]) (set_targetKeys rest a)
  end.

(** ** Deleting SQS messages in batches

    The loop [for len(handles) > 0 { ... DeleteMessageBatch ... }] that ends
    both [readSQSEvents] (on [dudMessageHandles]) and the success branch of
    [Acknowledge] (on [deleteHandles]): at most ten entries go into one
    request.  The answers are only logged. *)

Fixpoint deleteMessageBatches (fuel : nat) (q : option SQS) (url : string)
    (handles : list Entry) (w : World) : Outcome World :=
  match handles with
  | [] => Returns w
  | _ :: _ =>
      match fuel with
      | O => Diverges
      | S fuel' =>
          let entries := if Nat.ltb 10 (List.length handles) then firstn 10 handles else handles in
          let rest := if Nat.ltb 10 (List.length handles) then skipn 10 handles else [] in
          match q with
          | None => Panics
          | Some _ => deleteMessageBatches fuel' q url rest (emit (EvDeleteMessageBatch url entries) w)
          end
      end
  end.

(** ** [Acknowledge] *)

(** The loop over [a.readKeys] of the success branch: the objects are deleted
    when [delete_objects] is set, the SQS handles are collected. *)
Fixpoint ack_readKeys (a : AmazonS3) (keys : list objKey) (deleteHandles : list Entry)
    (w : World) : Outcome (list Entry * World) :=
  match keys with
  | [] => Returns (deleteHandles, w)
  | key :: keys' =>
      let step (w1 : World) :=
        ack_readKeys a keys'
          (match sqsHandle key with
           | Some h => deleteHandles ++ [h]
           | None => deleteHandles
           end) w1 in
      if DeleteObjects (conf a) then
        match s3 a with
        | None => Panics
        | Some _ => step (emit (EvDeleteObject (bucket_of (conf a) key) (s3Key key)) w)
        end
      else step w
  end.

Definition Acknowledge (err : option error) (a : AmazonS3) (w : World)
    : Outcome (option error * AmazonS3 * World) :=
  match err with
  | None =>
      match ack_readKeys a (readKeys a) [] w with
      | Returns (deleteHandles, w1) =>
          match deleteMessageBatches (List.length deleteHandles) (sqs a)
                  (SQSURL (conf a)) deleteHandles w1 with
          | Returns w2 => Returns (None, set_readKeys [] a, w2)
          | Panics => Panics
          | Diverges => Diverges
          end
      | Panics => Panics
      | Diverges => Diverges
      end
  | Some _ =>
      Returns (None, set_readKeys [] (set_targetKeys (readKeys a ++ targetKeys a) a), w)
  end.

(** ** [digStrsFromSlices] *)

Fixpoint digStrsFromValue (v : Value) : list string :=
  match v with
  | VArr t => flat_map digStrsFromValue t
  | VStr t => [t]
  | _ => []
  end.

Definition digStrsFromSlices (slice : list Value) : list string :=
  flat_map digStrsFromValue slice.

(** ** [readSQSEvents] *)

(** The block [if len(a.sqsEnvPath) > 0 { ... }] of the message loop: the
    document the paths are searched in, or [None] when the message is a dud. *)
Definition openEnvelope (a : AmazonS3) (gObj : Value) : option Value :=
  if Nat.ltb 0 (List.length (sqsEnvPath a)) then
    match Search lib gObj (sqsEnvPath a) with
    | VStr t =>
        match ParseJSON lib t with
        | inl _ => None
        | inr g => Some g
        end
    | VArr t =>
        let docs := flat_map (fun v => match Unmarshal lib v with
                                       | inr gObj2 => [gObj2]
                                       | inl _ => []
                                       end) (digStrsFromSlices t) in
        match docs with
        | [] => None
        | _ :: _ => Some (VArr docs)   (* gabs.Consume(docs) *)
        end
    | _ => None
    end
  else Some gObj.

(** [var buckets []string; switch t := gObj.S(a.sqsBucketPath...).Data().(type) { ... }]. *)
Definition extractBuckets (a : AmazonS3) (gObj : Value) : list string :=
  match Search lib gObj (sqsBucketPath a) with
  | VStr t => [t]
  | VArr t => digStrsFromSlices t
  | _ => []
  end.

(** [for i, target := range newTargets { ... append ... }], from index [i] on. *)
Fixpoint newTargetKeys (retries : Z) (buckets : list string) (i : nat)
    (newTargets : list string) : list objKey :=
  match newTargets with
  | [] => []
  | target :: rest =>
      let bucket := if Nat.ltb i (List.length buckets) then nth i buckets "" else "" in
      mkObjKey target bucket retries None :: newTargetKeys retries buckets (S i) rest
  end.

(** [l[len(l)-1] = f(l[len(l)-1])]. *)
Fixpoint update_last (A : Type) (f : A -> A) (l : list A) : list A :=
  match l with
  | [] => []
  | [x] => [f x]
  | x :: rest => x :: update_last f rest
  end.

(** One round of [messageLoop], on the reader and [dudMessageHandles]. *)
Definition messageLoop (sqsMsg : SQSMessage) (st : AmazonS3 * list Entry)
    : AmazonS3 * list Entry :=
  let '(a, dudMessageHandles) := st in
  let msgHandle := mkEntry (MessageId sqsMsg) (MsgReceiptHandle sqsMsg) in
  let dud := (a, dudMessageHandles ++ [msgHandle]) in
  match Body sqsMsg with
  | None => dud
  | Some body =>
      match ParseJSON lib body with
      | inl _ => dud
      | inr gObj0 =>
          match openEnvelope a gObj0 with
          | None => dud
          | Some gObj =>
              let buckets := extractBuckets a gObj in
              match Search lib gObj (sqsBodyPath a) with
              | VStr t =>
                  if HasPrefix t (Prefix (conf a)) then
                    let bucket := match buckets with
                                  | b :: _ => b
                                  | [] => ""
                                  end in
                    (set_targetKeys
                       (targetKeys a ++
                        [mkObjKey t bucket (Retries (conf a)) (Some msgHandle)]) a,
                     dudMessageHandles)
                  else (a, dudMessageHandles)
              | VArr t =>
                  let newTargets := filter (fun p => HasPrefix p (Prefix (conf a)))
                                      (digStrsFromSlices t) in
                  match newTargets with
                  | [] => dud
                  | _ :: _ =>
                      (set_targetKeys
                         (update_last (set_sqsHandle (Some msgHandle))
                            (targetKeys a ++
                             newTargetKeys (Retries (conf a)) buckets 0 newTargets)) a,
                       dudMessageHandles)
                  end
              | _ => (a, dudMessageHandles)
              end
          end
      end
  end.

Definition readSQSEvents (a : AmazonS3) (w : World)
    : Outcome (option error * AmazonS3 * World) :=
  match sqs a with
  | None => Panics
  | Some _ =>
      let url := SQSURL (conf a) in
      let maxMessages := SQSMaxMessages (conf a) in
      let waitSeconds := Z.quot (timeout a) 1000000000 in
      let w1 := emit (EvReceiveMessage url maxMessages waitSeconds) w in
      match ReceiveMessage aws (tick w) url maxMessages waitSeconds with
      | inl err => Returns (Some err, a, w1)
      | inr messages =>
          let '(a1, dudMessageHandles) :=
            fold_left (fun st sqsMsg => messageLoop sqsMsg st) messages (a, []) in
          (* Discard any SQS messages not associated with a target file. *)
          match deleteMessageBatches (List.length dudMessageHandles) (sqs a1) url
                  dudMessageHandles w1 with
          | Returns w2 =>
              if Nat.eqb (List.length (targetKeys a1)) 0
              then Returns (Some ErrTimeout, a1, w2)
              else Returns (None, a1, w2)
          | Panics => Panics
          | Diverges => Diverges
          end
      end
  end.

(** ** [Read] *)

Definition addS3Metadata (p : Part) (obj : GetObjectOutput) : Part :=
  let p1 := match LastModified obj with
            | Some t =>
                Part_Set "s3_last_modified_unix" (FormatInt lib t)
                  (Part_Set "s3_last_modified" (FormatRFC3339 lib t) p)
            | None => p
            end in
  match ContentType obj with
  | Some ct => Part_Set "s3_content_type" ct p1
  | None => p1
  end.

Definition download_failed (key bucket : string) (err : error) : error :=
  Errorf "failed to download file '%s' from bucket '%s': %v" [ArgStr key; ArgStr bucket; ArgErr err].

(** The result of [Read]: the message, the error, the reader and the world. *)
Definition ReadResult : Type := option Message * option error * AmazonS3 * World.

(** The [for] loop of [read]; every round that goes on to the next one has
    popped a target key. *)
Fixpoint read_loop (fuel : nat) (timeoutAt : Z) (msg : Message) (a : AmazonS3) (w : World)
    : Outcome ReadResult :=
  match fuel with
  | O => Diverges
  | S fuel' =>
      match targetKeys a with
      | [] => Returns (Some msg, None, a, w)
      | target :: rest =>
          if negb (Message_Len msg <? MaxBatchCount (conf a)) then Returns (Some msg, None, a, w)
          else
            let w0 := clock_read w in
            if negb (0 <? timeoutAt - Now aws (tick w)) then Returns (Some msg, None, a, w0)
            else
              let bucket := bucket_of (conf a) target in
              match s3 a with
              | None => Panics
              | Some _ =>
                  let w1 := emit (EvGetObject bucket (s3Key target)) w0 in
                  match GetObject aws (tick w0) bucket (s3Key target) with
                  | inl err =>
                      let target' := set_attempts (int_wrap (attempts target - 1)) target in
                      if attempts target' =? 0 then
                        (* Remove the target file from our list. *)
                        read_loop fuel' timeoutAt msg (popTargetKey a) w1
                      else
                        let a1 := set_targetKeys (target' :: rest) a in
                        if Message_Len msg =? 0
                        then Returns (None, Some (download_failed (s3Key target) bucket err), a1, w1)
                        else Returns (Some msg, None, a1, w1)
                  | inr obj =>
                      let a1 := popTargetKey a in
                      match ObjBody obj with
                      | inl err =>
                          Returns (None, Some (download_failed (s3Key target) bucket err), a1, w1)
                      | inr data =>
                          let part0 := fold_left (fun p kv => Part_Set (fst kv) (snd kv) p)
                                         (ObjMetadata obj) (NewPart data) in
                          let part1 := Part_Set "s3_bucket" bucket
                                         (Part_Set "s3_key" (s3Key target) part0) in
                          read_loop fuel' timeoutAt
                            (Message_Append msg (addS3Metadata part1 obj)) a1 w1
                      end
                  end
              end
      end
  end.

(** The [for] loop of [readFromMgr]. *)
Fixpoint readFromMgr_loop (fuel : nat) (timeoutAt : Z) (msg : Message) (a : AmazonS3)
    (w : World) : Outcome ReadResult :=
  match fuel with
  | O => Diverges
  | S fuel' =>
      match targetKeys a with
      | [] => Returns (Some msg, None, a, w)
      | target :: rest =>
          if negb (Message_Len msg <? MaxBatchCount (conf a)) then Returns (Some msg, None, a, w)
          else
            let w0 := clock_read w in
            if negb (0 <? timeoutAt - Now aws (tick w)) then Returns (Some msg, None, a, w0)
            else
              let bucket := bucket_of (conf a) target in
              match downloader a with
              | None => Panics
              | Some _ =>
                  let w1 := emit (EvDownload bucket (s3Key target)) w0 in
                  match Download aws (tick w0) bucket (s3Key target) with
                  | inl err =>
                      let target' := set_attempts (int_wrap (attempts target - 1)) target in
                      if attempts target' =? 0 then
                        (* Remove the target file from our list. *)
                        readFromMgr_loop fuel' timeoutAt msg (popTargetKey a) w1
                      else
                        let a1 := set_targetKeys (target' :: rest) a in
                        if Message_Len msg =? 0
                        then Returns (None, Some (download_failed (s3Key target) bucket err), a1, w1)
                        else Returns (Some msg, None, a1, w1)
                  | inr buff =>
                      let a1 := popTargetKey a in
                      let part := Part_Set "s3_bucket" bucket
                                    (Part_Set "s3_key" (s3Key target) (NewPart buff)) in
                      readFromMgr_loop fuel' timeoutAt (Message_Append msg part) a1 w1
                  end
              end
      end
  end.

(** What [read] and [readFromMgr] share: everything but the loop. *)
Definition read_with (loop : nat -> Z -> Message -> AmazonS3 -> World -> Outcome ReadResult)
    (a : AmazonS3) (w : World) : Outcome ReadResult :=
  match session a with
  | None => Returns (None, Some ErrNotConnected, a, w)
  | Some _ =>
      let timeoutAt := Now aws (tick w) + timeout a in
      let w0 := clock_read w in
      let batch (a1 : AmazonS3) (w1 : World) :=
        if Nat.eqb (List.length (targetKeys a1)) 0
        then Returns (None, Some ErrTimeout, a1, w1)
        else loop (S (List.length (targetKeys a1))) timeoutAt Message_New a1 w1 in
      if Nat.eqb (List.length (targetKeys a)) 0 then
        match sqs a with
        | Some _ =>
            match readSQSEvents a w0 with
            | Returns (Some err, a1, w1) => Returns (None, Some err, a1, w1)
            | Returns (None, a1, w1) => batch a1 w1
            | Panics => Panics
            | Diverges => Diverges
            end
        | None =>
            (* If we aren't using SQS but exhausted our targets we are done. *)
            Returns (None, Some ErrTypeClosed, a, w0)
        end
      else batch a w0
  end.

Definition read : AmazonS3 -> World -> Outcome ReadResult := read_with read_loop.

Definition readFromMgr : AmazonS3 -> World -> Outcome ReadResult := read_with readFromMgr_loop.

Definition Read (a : AmazonS3) (w : World) : Outcome ReadResult :=
  match readMethod a with
  | method_readFromMgr => readFromMgr a w
  | method_read => read a w
  end.

End Reader.

(** ** The decompress processor (package [processor]) *)

Module Processor.

(** [types.Message] as this processor sees it: a struct with the field
    [Parts [][]byte]. *)
Record Message := mkMessage { Parts : list bytes }.

(** [types.Response]; [types.NewSimpleResponse(err)]. *)
Inductive Response := NewSimpleResponse (err : option error).

Record DecompressConfig := mkDecompressConfig {
  Algorithm : string;
  (* the [parts] field, a [[]int] *)
  ConfParts : list Z
}.

Definition NewDecompressConfig : DecompressConfig :=
  {| Algorithm := "gzip"; ConfParts := [] |}.

Definition decompressFunc : Type := bytes -> error + bytes.

(** What package [compress/gzip] and [io] provide.  A [gzip.Reader] is
    described by what its [Read] delivers: the chunks of data, then the error
    that ends the stream, [io_EOF] when the stream was complete and its
    checksum right. *)
Inductive io_error := io_EOF | io_other (err : error).

Record GzipReader := mkGzipReader {
  chunks : list bytes;
  final : io_error
}.

Record Gzip := mkGzip {
  (* gzip.NewReader(bytes.NewBuffer(b)) *)
  gzip_NewReader : bytes -> error + GzipReader
}.

(** Modelled from the spec: the compress processor, the "Compress" of property
    R1 ("Compress then Decompress on any part payload equals the original"), is
    absent from these sources.  It is a function from a payload to its gzip
    form, of which nothing more is said. *)
Definition Compressor : Type := bytes -> bytes.

(** What R1 asks of a compressor and the gzip reader together: the reader
    opened on the compressed form of a payload delivers that payload, in any
    number of chunks, and then [io.EOF]. *)
Definition gzip_round_trip (gz : Gzip) (compress : Compressor) : Prop :=
  forall b : bytes,
    exists zr,
      gzip_NewReader gz (compress b) = inr zr /\
      List.concat (chunks zr) = b /\
      final zr = io_EOF.

(** [outBuf.ReadFrom(zr)] on an empty [bytes.Buffer]: everything read, and the
    error of the reader, with [io.EOF] turned into [nil]. *)
Definition Buffer_ReadFrom (zr : GzipReader) : bytes * option io_error :=
  (List.concat (chunks zr),
   match final zr with
   | io_EOF => None
   | io_other e => Some (io_other e)
   end).

Definition gzipDecompress (gz : Gzip) : decompressFunc := fun b =>
  match gzip_NewReader gz b with
  | inl err => inl err
  | inr zr =>
      let '(outBuf, err) := Buffer_ReadFrom zr in
      match err with
      | Some (io_other e) => inl e     (* err != nil && err != io.EOF *)
      | Some io_EOF => inr outBuf
      | None => inr outBuf
      end
  end.

Definition strToDecompressor (gz : Gzip) (str : string) : error + decompressFunc :=
  if String.eqb str "gzip" then inr (gzipDecompress gz)
  else inl (Errorf "decompression type not recognised: %v" [ArgStr str]).

Record Decompress := mkDecompress {
  conf : DecompressConfig;
  decomp : decompressFunc
}.

Definition NewDecompress (gz : Gzip) (c : DecompressConfig) : error + Decompress :=
  match strToDecompressor gz (Algorithm c) with
  | inl err => inl err
  | inr dcor => inr (mkDecompress c dcor)
  end.

(** The body of [for i, part := range msg.Parts] that decides [isTarget]. *)
Definition isTarget (d : Decompress) (lParts i : Z) : bool :=
  let noParts := Nat.eqb (List.length (ConfParts (conf d))) 0 in
  if noParts then true
  else
    let nI := i - lParts in
    existsb (fun t => (t =? nI) || (t =? i)) (ConfParts (conf d)).

(** The loop over [msg.Parts], from index [i] on, appending to [newParts]. *)
Fixpoint process_parts (d : Decompress) (lParts : Z) (i : Z) (ps : list bytes)
    (newParts : list bytes) : list bytes :=
  match ps with
  | [] => newParts
  | part :: rest =>
      if negb (isTarget d lParts i) then
        process_parts d lParts (i + 1) rest (newParts ++ [part])
      else
        match decomp d part with
        | inr newPart => process_parts d lParts (i + 1) rest (newParts ++ [newPart])
        | inl _ => process_parts d lParts (i + 1) rest newParts
        end
  end.

Definition ProcessMessage (d : Decompress) (msg : Message)
    : list Message * option Response :=
  let lParts := Z.of_nat (List.length (Parts msg)) in
  let newParts := process_parts d lParts 0 (Parts msg) [] in
  if Nat.eqb (List.length newParts) 0 then
    ([], Some (NewSimpleResponse None))
  else
    ([mkMessage newParts], None).

(** What the description of the processor says a part becomes: a part that
    is not a target stays, a target is replaced by its decompression or
    removed when that fails. *)
Definition part_result (d : Decompress) (lParts : Z) (i : nat) (part : bytes) : list bytes :=
  if isTarget d lParts (Z.of_nat i) then
    match decomp d part with
    | inr newPart => [newPart]
    | inl _ => []
    end
  else [part].

Fixpoint parts_result_from (d : Decompress) (lParts : Z) (i : nat) (ps : list bytes)
    : list bytes :=
  match ps with
  | [] => []
  | part :: rest => part_result d lParts i part ++ parts_result_from d lParts (S i) rest
  end.

Definition parts_result (d : Decompress) (msg : Message) : list bytes :=
  parts_result_from d (Z.of_nat (List.length (Parts msg))) 0 (Parts msg).

End Processor.

(** ** The input constructors (package [input]) *)

Module Input.

(** The interface [reader.Type], on a connector whose state has type [T]. *)
Class ReaderType (T : Type) := {
  Connect : T -> option error * T;
  Read : T -> option Message * option error * T;
  Acknowledge : option error -> T -> option error * T;
  CloseAsync : T -> T;
  WaitForClose : Z -> T -> option error * T
}.

(** Modelled from the spec: [reader.Preserver] and [reader.NewPreserver] are
    absent from the sources at hand.  "If Acknowledge(err) arrives with
    err != nil, the preserver retains the last message and re-emits it on the
    next Read() call instead of polling the upstream.  The preserver is
    transparent to both sides." *)
Record Preserver (T : Type) := mkPreserver {
  upstream : T;
  (* the last message read and not yet acknowledged *)
  lastMessage : option Message;
  (* the message retained after a failed acknowledgement *)
  retained : option Message
}.

Definition NewPreserver (T : Type) (r : T) : Preserver T := mkPreserver r None None.

Definition Preserver_Read (T : Type) `{ReaderType T} (p : Preserver T)
    : option Message * option error * Preserver T :=
  match retained p with
  | Some m => (Some m, None, mkPreserver (upstream p) (Some m) None)
  | None =>
      let '(msg, err, r') := Read (upstream p) in
      match err with
      | None => (msg, err, mkPreserver r' msg None)
      | Some _ => (msg, err, mkPreserver r' (lastMessage p) None)
      end
  end.

Definition Preserver_Acknowledge (T : Type) `{ReaderType T} (err : option error)
    (p : Preserver T) : option error * Preserver T :=
  let '(res, r') := Acknowledge err (upstream p) in
  match err with
  | None => (res, mkPreserver r' None (retained p))
  | Some _ => (res, mkPreserver r' None (lastMessage p))
  end.

#[export] Instance Preserver_ReaderType (T : Type) `{ReaderType T} : ReaderType (Preserver T) := {
  Connect p :=
    let '(res, r') := Connect (upstream p) in
    (res, mkPreserver r' (lastMessage p) (retained p));
  Read := Preserver_Read (T := T);
  Acknowledge := Preserver_Acknowledge (T := T);
  CloseAsync p := mkPreserver (CloseAsync (upstream p)) (lastMessage p) (retained p);
  WaitForClose deadline p :=
    let '(res, r') := WaitForClose deadline (upstream p) in
    (res, mkPreserver r' (lastMessage p) (retained p))
}.

(** Modelled from the spec: the reader adaptor built by [NewReader] is absent
    from the sources at hand; here it is the record of what it was given, the
    type string and the connector it drives. *)
Record Reader := mkReader {
  typeStr : string;
  connector_type : Type;
  connector_ops : ReaderType connector_type;
  connector : connector_type
}.

Definition NewReader (typeStr : string) (T : Type) `{ops : ReaderType T} (r : T)
    : error + Reader :=
  inr (mkReader typeStr ops r).

Section Constructors.

(** The connectors of package [reader] and their constructors, which are not
    among the sources at hand. *)
Variables (RedisListConfig RedisList NSQConfig NSQ : Type).
Context `{RedisList_ops : ReaderType RedisList} `{NSQ_ops : ReaderType NSQ}.
Variable reader_NewRedisList : RedisListConfig -> error + RedisList.
Variable reader_NewNSQ : NSQConfig -> error + NSQ.

(** [input.Config], the two fields used here. *)
Record Config := mkConfig {
  Config_NSQ : NSQConfig;
  Config_RedisList : RedisListConfig
}.

Definition NewNSQ (conf : Config) : error + Reader :=
  match reader_NewNSQ (Config_NSQ conf) with
  | inl err => inl err
  | inr n => NewReader "nsq" n
  end.

Definition NewRedisList (conf : Config) : error + Reader :=
  match reader_NewRedisList (Config_RedisList conf) with
  | inl err => inl err
  | inr r => NewReader "redis_list" (NewPreserver r)
  end.

End Constructors.

End Input.

(** ** Reachable reader states *)

Section Reachability.

Variable lib : Lib.

(** The states a reader built by [NewAmazonS3] gets into through calls of its
    methods that return, whatever the outside world answers. *)
Inductive reachable : AmazonS3 -> Prop :=
| reach_New : forall c a,
    NewAmazonS3 lib c = inr a -> reachable a
| reach_Connect : forall aws a w res a' w',
    reachable a -> Connect aws a w = Returns (res, a', w') -> reachable a'
| reach_Read : forall aws a w msg err a' w',
    reachable a -> Read lib aws a w = Returns (msg, err, a', w') -> reachable a'
| reach_Acknowledge : forall a w err res a' w',
    reachable a -> Acknowledge err a w = Returns (res, a', w') -> reachable a'.

End Reachability.

(** The SQS handles of a list of keys, in order: what the loop of
    [Acknowledge] collects in [deleteHandles]. *)
Definition handles_of (keys : list objKey) : list Entry :=
  flat_map (fun key => match sqsHandle key with
                       | Some h => [h]
                       | None => []
                       end) keys.

(** The [DeleteObject] requests for a list of keys, in order. *)
Definition delete_requests (c : AmazonS3Config) (keys : list objKey) : list Event :=
  map (fun key => EvDeleteObject (bucket_of c key) (s3Key key)) keys.

(** What every reachable state satisfies. *)
Record Inv (a : AmazonS3) : Prop := mkInv {
  inv_disconnected :
    session a = None -> sqs a = None /\ readKeys a = [];
  inv_connected :
    session a <> None ->
    s3 a <> None /\ downloader a <> None /\ (sqs a <> None <-> SQSURL (conf a) <> "");
  inv_handles :
    sqs a = None -> Forall (fun k => sqsHandle k = None) (readKeys a ++ targetKeys a);
  inv_batch : 1 <= MaxBatchCount (conf a)
}.

(** The fields no method but [Connect] assigns. *)
Definition same_clients (a a' : AmazonS3) : Prop :=
  conf a' = conf a /\ session a' = session a /\ s3 a' = s3 a /\
  downloader a' = downloader a /\ sqs a' = sqs a /\ readMethod a' = readMethod a.

(** A [DeleteMessageBatch] request carries one to ten entries. *)
Definition batch_ok (b : list Entry) : Prop := (1 <= List.length b <= 10)%nat.

(** No key of the reader carries an SQS handle. *)
Definition no_handles (a : AmazonS3) : Prop :=
  Forall (fun k => sqsHandle k = None) (readKeys a ++ targetKeys a).

(** What both loops of [Read] keep: the clients, and the absence of SQS
    handles. *)
Definition loop_keeps (a0 a : AmazonS3) : Prop :=
  same_clients a0 a /\ (no_handles a0 -> no_handles a).

(** The request by which [Read] fetches the object of a key. *)
Definition download_request (a : AmazonS3) (k : objKey) : Event :=
  match readMethod a with
  | method_read => EvGetObject (bucket_of (conf a) k) (s3Key k)
  | method_readFromMgr => EvDownload (bucket_of (conf a) k) (s3Key k)
  end.

(** ** Vocabulary for the properties of the reader *)

(** A key without its count of attempts. *)
Definition key_id (k : objKey) : string * string * option Entry :=
  (s3Key k, s3Bucket k, sqsHandle k).

(** [Metadata().Get(k)]: the value [meta_Set] stored under [k]. *)
Fixpoint meta_Get (k : string) (m : list (string * string)) : option string :=
  match m with
  | [] => None
  | (k', v) :: rest => if String.eqb k k' then Some v else meta_Get k rest
  end.



(** The prefix [Connect] puts in its [ListObjectsInput]. *)
Definition list_prefix (c : AmazonS3Config) : option string :=
  if Nat.ltb 0 (len_str (Prefix c)) then Some (Prefix c) else None.

(** The target keys [Connect] makes of the pages of a listing. *)
Definition listed_keys (c : AmazonS3Config) (pages : list (list string)) : list objKey :=
  map (fun key => mkObjKey key "" (Retries c) None) (List.concat pages).

(** What the attempt of [Read] to fetch the object of key [k] comes to, when
    the outside world is consulted for the [n]-th time: the request fails, or
    (without the download manager) reading the body fails, or there is a part,
    the one the loop of [read] or of [readFromMgr] builds. *)
Inductive Fetched : Type :=
| FetchFailed (err : error)
| BodyFailed (err : error)
| FetchedPart (p : Part).

Definition fetch (lib : Lib) (aws : Aws) (a : AmazonS3) (n : nat) (k : objKey) : Fetched :=
  let bucket := bucket_of (conf a) k in
  match readMethod a with
  | method_read =>
      match GetObject aws n bucket (s3Key k) with
      | inl err => FetchFailed err
      | inr obj =>
          match ObjBody obj with
          | inl err => BodyFailed err
          | inr data =>
              FetchedPart
                (addS3Metadata lib
                   (Part_Set "s3_bucket" bucket
                      (Part_Set "s3_key" (s3Key k)
                         (fold_left (fun p kv => Part_Set (fst kv) (snd kv) p)
                            (ObjMetadata obj) (NewPart data)))) obj)
          end
      end
  | method_readFromMgr =>
      match Download aws n bucket (s3Key k) with
      | inl err => FetchFailed err
      | inr buff =>
          FetchedPart (Part_Set "s3_bucket" bucket (Part_Set "s3_key" (s3Key k) (NewPart buff)))
      end
  end.


(** The reader and the dud handles after the message loop of [readSQSEvents]
    has gone through [messages]. *)
Definition after_messages (lib : Lib) (a : AmazonS3) (messages : list SQSMessage)
    : AmazonS3 * list Entry :=
  fold_left (fun st sqsMsg => messageLoop lib sqsMsg st) messages (a, []).

(** The handle [readSQSEvents] makes for a message. *)
Definition handle_of (sqsMsg : SQSMessage) : Entry :=
  mkEntry (MessageId sqsMsg) (MsgReceiptHandle sqsMsg).

(** ** A scripted outside world

    Stand-ins for the libraries and for AWS, to run the reader on examples. *)

(** A path search in the manner of gabs: a field at a time through objects,
    through every element of an array, collecting what is found. *)
Fixpoint example_Search (v : Value) (hierarchy : list string) : Value :=
  match hierarchy with
  | [] => v
  | target :: rest =>
      match v with
      | VMap fields =>
          (fix find (fs : list (string * Value)) : Value :=
             match fs with
             | [] => VNil
             | (k, x) :: fs' => if String.eqb k target then example_Search x rest else find fs'
             end) fields
      | VArr elems =>
          match flat_map (fun val => match example_Search val hierarchy with
                                     | VNil => []
                                     | res => [res]
                                     end) elems with
          | [] => VNil
          | tmp => VArr tmp
          end
      | _ => VNil
      end
  end.

(** An S3 event notification naming the given object keys. *)
Definition example_event (keys : list string) : Value :=
  VMap [("Records",
         VArr (map (fun k => VMap [("s3", VMap [("object", VMap [("key", VStr k)])])]) keys))].

(** Decodes three documents only. *)
Definition example_ParseJSON (s : string) : error + Value :=
  if String.eqb s "one-key" then inr (VMap [("Records", VMap [("s3", VMap [("object", VMap [("key", VStr "k1")])]);
                                                              ("bucket", VArr [VStr "b1"; VStr "b2"])])])
  else if String.eqb s "two-keys" then inr (example_event ["k1"; "k2"])
  else if String.eqb s "three-keys" then inr (example_event ["k1"; "k2"; "k3"])
  else inl (ErrLib "invalid character").

Definition example_lib : Lib :=
  {| ParseDuration := fun s => if String.eqb s "5s" then inr 5000000000
                               else inl (ErrLib "time: invalid duration");
     ParseJSON := example_ParseJSON;
     Unmarshal := example_ParseJSON;
     Search := example_Search;
     FormatRFC3339 := fun _ => "1970-01-01T00:00:00Z";
     FormatInt := fun _ => "0" |}.

(** An AWS where the bucket lists the one object ["gone"], the objects ["k1"]
    and ["k3"] can be downloaded and no other, the queue delivers [messages],
    and the clock stands still. *)
Definition example_aws (messages : list SQSMessage) : Aws :=
  {| GetSession := fun _ => inr (mkSession 0);
     ListObjectsPages := fun _ _ _ => ([["gone"]], None);
     GetObject := fun _ _ key =>
       if String.eqb key "k1" || String.eqb key "k3"
       then inr (mkGetObjectOutput (inr []) [] None None)
       else inl (ErrLib "NoSuchKey");
     Download := fun _ _ key =>
       if String.eqb key "k1" || String.eqb key "k3" then inr []
       else inl (ErrLib "NoSuchKey");
     ReceiveMessage := fun _ _ _ _ => inr messages;
     Now := fun _ => 0 |}.

Definition example_world : World := mkWorld 0 [].

(** The return value of a call that returned. *)
Definition returned (A : Type) (default : A) (o : Outcome A) : A :=
  match o with
  | Returns x => x
  | _ => default
  end.

(** A reader of the bucket ["b"] without a queue, one attempt per object, no
    download manager. *)
Definition example_conf_bucket : AmazonS3Config :=
  {| Bucket := "b"; Prefix := ""; Retries := 1; DownloadManager_Enabled := false;
     DeleteObjects := false; SQSURL := ""; SQSBodyPath := "Records.s3.object.key";
     SQSBucketPath := ""; SQSEnvelopePath := ""; SQSMaxMessages := 10;
     MaxBatchCount := 1; Timeout := "5s" |}.

(** A reader driven by the queue ["q"] that deletes what it has consumed. *)
Definition example_conf_queue : AmazonS3Config :=
  {| Bucket := "b"; Prefix := ""; Retries := 1; DownloadManager_Enabled := true;
     DeleteObjects := true; SQSURL := "q"; SQSBodyPath := "Records.s3.object.key";
     SQSBucketPath := ""; SQSEnvelopePath := ""; SQSMaxMessages := 10;
     MaxBatchCount := 3; Timeout := "5s" |}.

Definition example_message (body : string) : SQSMessage :=
  mkSQSMessage (Some "id-1") (Some "receipt-1") (Some body).

(** The queue-driven reader: built, connected, and after a first [Read] of an
    event that names ["k1"] and ["k2"]. *)
Definition example_queue_new : AmazonS3 :=
  match NewAmazonS3 example_lib example_conf_queue with
  | inr a => a
  | inl _ => mkAmazonS3 example_conf_queue [] [] [] [] [] method_read None None None None 0
  end.

Definition example_queue_aws : Aws := example_aws [example_message "two-keys"].

Definition example_queue_connected : option error * AmazonS3 * World :=
  returned (None, example_queue_new, example_world)
    (Connect example_queue_aws example_queue_new example_world).

Definition example_queue_read : ReadResult :=
  returned (None, None, example_queue_new, example_world)
    (Read example_lib example_queue_aws
       (snd (fst example_queue_connected)) (snd example_queue_connected)).

(** The bucket reader: built and connected. *)
Definition example_bucket_new : AmazonS3 :=
  match NewAmazonS3 example_lib example_conf_bucket with
  | inr a => a
  | inl _ => example_queue_new
  end.

Definition example_bucket_connected : option error * AmazonS3 * World :=
  returned (None, example_bucket_new, example_world)
    (Connect (example_aws []) example_bucket_new example_world).

Definition example_bucket_read : ReadResult :=
  returned (None, None, example_bucket_new, example_world)
    (Read example_lib (example_aws [])
       (snd (fst example_bucket_connected)) (snd example_bucket_connected)).

(** A queue-driven reader that also looks for bucket names in the events. *)
Definition example_conf_buckets : AmazonS3Config :=
  {| Bucket := "b"; Prefix := "k"; Retries := 1; DownloadManager_Enabled := true;
     DeleteObjects := true; SQSURL := "q"; SQSBodyPath := "Records.s3.object.key";
     SQSBucketPath := "Records.bucket"; SQSEnvelopePath := ""; SQSMaxMessages := 10;
     MaxBatchCount := 3; Timeout := "5s" |}.

Definition example_buckets_new : AmazonS3 :=
  match NewAmazonS3 example_lib example_conf_buckets with
  | inr a => a
  | inl _ => example_queue_new
  end.

(** A stand-in for the gzip library and the compressor: the "compressed" form
    of a payload is the payload behind the two magic bytes of a gzip header,
    and the reader hands the payload over a byte at a time. *)
Definition example_gzip : Processor.Gzip :=
  {| Processor.gzip_NewReader := fun b =>
       match b with
       | Byte.x1f :: Byte.x8b :: data =>
           inr (Processor.mkGzipReader (map (fun x => [x]) data) Processor.io_EOF)
       | _ => inl (ErrLib "gzip: invalid header")
       end |}.

Definition example_compress : Processor.Compressor :=
  fun b => Byte.x1f :: Byte.x8b :: b.

(** An AWS whose first listing breaks off after a page and whose later
    listings go through. *)
Definition example_aws_flaky : Aws :=
  {| GetSession := fun _ => inr (mkSession 0);
     ListObjectsPages := fun n _ _ =>
       if Nat.ltb n 2 then ([["gone"]], Some (ErrLib "RequestError"))
       else ([["gone"; "more"]], None);
     GetObject := fun _ _ _ => inl (ErrLib "NoSuchKey");
     Download := fun _ _ _ => inl (ErrLib "NoSuchKey");
     ReceiveMessage := fun _ _ _ _ => inl (ErrLib "RequestError");
     Now := fun _ => 0 |}.

(** A queue-driven reader that wants keys under the prefix ["z"] only. *)
Definition example_conf_z : AmazonS3Config :=
  {| Bucket := "b"; Prefix := "z"; Retries := 1; DownloadManager_Enabled := true;
     DeleteObjects := true; SQSURL := "q"; SQSBodyPath := "Records.s3.object.key";
     SQSBucketPath := ""; SQSEnvelopePath := ""; SQSMaxMessages := 10;
     MaxBatchCount := 3; Timeout := "5s" |}.

Definition example_z_new : AmazonS3 :=
  match NewAmazonS3 example_lib example_conf_z with
  | inr a => a
  | inl _ => example_queue_new
  end.


(** A key appended by [readSQSEvents] is under the prefix and has all its
    attempts. *)
Definition key_fresh (c : AmazonS3Config) (k : objKey) : Prop :=
  HasPrefix (s3Key k) (Prefix c) = true /\ attempts k = Retries c.

(** Two messages that name no object: one that is not JSON, one without a
    body. *)
Definition example_duds : list SQSMessage :=
  [mkSQSMessage (Some "id-2") (Some "receipt-2") (Some "garbage");
   mkSQSMessage (Some "id-3") (Some "receipt-3") None].

(** The loop [Read] runs for a reader. *)
Definition loop_of (lib : Lib) (aws : Aws) (a : AmazonS3)
    : nat -> Z -> Message -> AmazonS3 -> World -> Outcome ReadResult :=
  match readMethod a with
  | method_read => read_loop lib aws
  | method_readFromMgr => readFromMgr_loop aws
  end.

(** A part that says it is the object of key [k]: its metadata hold the key
    and the bucket the key is read from. *)
Definition part_of (c : AmazonS3Config) (k : objKey) (p : Part) : Prop :=
  meta_Get "s3_key" (metadata p) = Some (s3Key k) /\
  meta_Get "s3_bucket" (metadata p) = Some (bucket_of c k).

(** A bucket that lists ["k1"], ["bad"] and ["gone"]: ["k1"] can be fetched,
    the body of ["bad"] breaks off while it is read, ["gone"] cannot be
    fetched. *)
Definition example_aws_objects : Aws :=
  {| GetSession := fun _ => inr (mkSession 0);
     ListObjectsPages := fun _ _ _ => ([["k1"; "bad"; "gone"]], None);
     GetObject := fun _ _ key =>
       if String.eqb key "k1"
       then inr (mkGetObjectOutput (inr [Byte.x68; Byte.x69]) [("owner", "me")]
                   (Some 0) (Some "text/plain"))
       else if String.eqb key "bad"
       then inr (mkGetObjectOutput (inl (ErrLib "unexpected EOF")) [] None None)
       else inl (ErrLib "NoSuchKey");
     Download := fun _ _ key =>
       if String.eqb key "k1" then inr [Byte.x68; Byte.x69] else inl (ErrLib "NoSuchKey");
     ReceiveMessage := fun _ _ _ _ => inr [];
     Now := fun _ => 0 |}.

(** A reader of the bucket ["b"] without a queue and without the download
    manager, three attempts per object, [n] objects to a message. *)
Definition example_conf_batch (n : Z) : AmazonS3Config :=
  {| Bucket := "b"; Prefix := ""; Retries := 3; DownloadManager_Enabled := false;
     DeleteObjects := false; SQSURL := ""; SQSBodyPath := "Records.s3.object.key";
     SQSBucketPath := ""; SQSEnvelopePath := ""; SQSMaxMessages := 10;
     MaxBatchCount := n; Timeout := "5s" |}.

Definition example_batch_new (n : Z) : AmazonS3 :=
  match NewAmazonS3 example_lib (example_conf_batch n) with
  | inr a => a
  | inl _ => example_queue_new
  end.

(** Connected to the bucket of [example_aws_objects]. *)
Definition example_objects_connected (n : Z) : option error * AmazonS3 * World :=
  returned (None, example_batch_new n, example_world)
    (Connect example_aws_objects (example_batch_new n) example_world).

(** Connected to the bucket of [example_aws], whose one object cannot be
    fetched. *)
Definition example_retry_connected : option error * AmazonS3 * World :=
  returned (None, example_batch_new 1, example_world)
    (Connect (example_aws []) (example_batch_new 1) example_world).

(** The parts [newParts] come from keys among [moved], no more of them than
    keys. *)
Definition parts_covered (c : AmazonS3Config) (moved : list objKey) (newParts : list Part)
    : Prop :=
  (List.length newParts <= List.length moved)%nat /\
  Forall (fun p => exists k, In k moved /\ part_of c k p) newParts.

(** * Theorems *)

Unset Implicit Arguments.

(** ** Small facts *)

Lemma len_str_zero (s : string) : len_str s = 0%nat <-> s = "".
Proof.
  destruct s; simpl; split; intro H; try reflexivity; discriminate H.
Qed.

Lemma world_eta (w : World) : mkWorld (tick w) (trace w) = w.
Proof. destruct w; reflexivity. Qed.

Lemma handles_of_app (l1 l2 : list objKey) :
  handles_of (l1 ++ l2) = handles_of l1 ++ handles_of l2.
Proof. unfold handles_of. apply flat_map_app. Qed.

Lemma handles_of_none (l : list objKey) :
  Forall (fun k => sqsHandle k = None) l -> handles_of l = [].
Proof.
  induction 1 as [|k l Hk _ IH]; simpl; [reflexivity|].
  rewrite Hk. exact IH.
Qed.

(** ** The batches of [DeleteMessageBatch] *)

Lemma deleteMessageBatches_spec :
  forall fuel q url handles w,
    (List.length handles <= fuel)%nat ->
    (handles = [] \/ q <> None) ->
    exists batches,
      deleteMessageBatches fuel q url handles w =
        Returns (mkWorld (tick w + List.length batches)
                         (trace w ++ map (EvDeleteMessageBatch url) batches)) /\
      List.concat batches = handles /\
      Forall batch_ok batches.
Proof.
  induction fuel as [|fuel IH]; intros q url handles w Hlen Hq.
  - destruct handles as [|h hs]; [|simpl in Hlen; lia].
    exists []. simpl. rewrite Nat.add_0_r, app_nil_r, world_eta. auto.
  - destruct handles as [|h hs].
    + exists []. simpl. rewrite Nat.add_0_r, app_nil_r, world_eta. auto.
    + destruct Hq as [Hq|Hq]; [discriminate Hq|].
      destruct q as [q|]; [|congruence].
      cbn [deleteMessageBatches].
      set (handles := h :: hs) in *.
      destruct (Nat.ltb_spec 10 (List.length handles)) as [Hgt|Hle].
      * destruct (IH (Some q) url (skipn 10 handles)
                    (emit (EvDeleteMessageBatch url (firstn 10 handles)) w))
          as [bs [Hrun [Hcat Hall]]].
        { rewrite length_skipn. lia. }
        { right; discriminate. }
        exists (firstn 10 handles :: bs). split; [|split].
        -- rewrite Hrun. unfold emit. cbn [tick trace List.length map].
           rewrite <- app_assoc. cbn [app]. do 2 f_equal. lia.
        -- cbn [List.concat]. rewrite Hcat. apply firstn_skipn.
        -- constructor; [|exact Hall]. unfold batch_ok.
           rewrite length_firstn. lia.
      * exists [handles]. split; [|split].
        -- destruct fuel; cbn [deleteMessageBatches];
             unfold emit; cbn [tick trace List.length map]; do 2 f_equal; lia.
        -- cbn [List.concat]. apply app_nil_r.
        -- constructor; [|constructor]. unfold batch_ok. subst handles.
           cbn [List.length] in *. lia.
Qed.

(** ** The loop of [Acknowledge] over the read keys *)

Lemma ack_readKeys_spec :
  forall a keys hs w,
    (DeleteObjects (conf a) = true -> keys <> [] -> s3 a <> None) ->
    ack_readKeys a keys hs w =
      Returns (hs ++ handles_of keys,
               if DeleteObjects (conf a)
               then mkWorld (tick w + List.length keys)
                            (trace w ++ delete_requests (conf a) keys)
               else w).
Proof.
  intros a keys. induction keys as [|key keys IH]; intros hs w Hs3.
  - cbn. rewrite app_nil_r, Nat.add_0_r, app_nil_r, world_eta.
    destruct (DeleteObjects (conf a)); reflexivity.
  - cbn [ack_readKeys handles_of flat_map].
    fold (handles_of keys).
    assert (Hs3' : DeleteObjects (conf a) = true -> keys <> [] -> s3 a <> None)
      by (intros; apply Hs3; [assumption|discriminate]).
    destruct (DeleteObjects (conf a)) eqn:Hdel.
    + destruct (s3 a) as [c|] eqn:Hc.
      * rewrite IH by exact Hs3'.
        unfold emit, delete_requests. cbn [tick trace List.length map].
        rewrite <- !app_assoc. cbn [app].
        rewrite Nat.add_succ_comm.
        destruct (sqsHandle key); rewrite <- ?app_assoc; reflexivity.
      * exfalso. apply Hs3; [reflexivity|discriminate|reflexivity].
    + rewrite IH by exact Hs3'.
      destruct (sqsHandle key); rewrite <- ?app_assoc; reflexivity.
Qed.

(** ** What the loops of [Read] preserve *)

Section Loops.

Variable lib : Lib.
Variable aws : Aws.

Ltac split_cases H :=
  repeat match type of H with
         | context [match ?x with _ => _ end] => destruct x eqn:?
         end.

Ltac loop_step IH H :=
  cbn [read_loop readFromMgr_loop] in H; split_cases H;
  try discriminate H;
  try (injection H as <- <- <- <-);
  try (eapply IH; [|exact H]).

Variable P : AmazonS3 -> Prop.
Hypothesis P_pop : forall a, P a -> P (popTargetKey a).
Hypothesis P_retry : forall a target rest n,
  targetKeys a = target :: rest -> P a ->
  P (set_targetKeys (set_attempts n target :: rest) a).

Lemma read_loop_preserves :
  forall fuel timeoutAt msg a w m e a' w',
    P a -> read_loop lib aws fuel timeoutAt msg a w = Returns (m, e, a', w') -> P a'.
Proof.
  induction fuel as [|fuel IH]; intros timeoutAt msg a w m e a' w' HP H.
  - discriminate H.
  - loop_step IH H; auto.
Qed.

Lemma readFromMgr_loop_preserves :
  forall fuel timeoutAt msg a w m e a' w',
    P a -> readFromMgr_loop aws fuel timeoutAt msg a w = Returns (m, e, a', w') -> P a'.
Proof.
  induction fuel as [|fuel IH]; intros timeoutAt msg a w m e a' w' HP H.
  - discriminate H.
  - loop_step IH H; auto.
Qed.

End Loops.

(** ** The invariant *)

Lemma same_clients_refl (a : AmazonS3) : same_clients a a.
Proof. repeat split. Qed.

Lemma same_clients_trans (a b c : AmazonS3) :
  same_clients a b -> same_clients b c -> same_clients a c.
Proof. unfold same_clients. intuition congruence. Qed.

Lemma popTargetKey_same (a : AmazonS3) : same_clients a (popTargetKey a).
Proof. unfold popTargetKey. destruct (targetKeys a); repeat split. Qed.

Lemma popTargetKey_keys (a : AmazonS3) :
  readKeys (popTargetKey a) ++ targetKeys (popTargetKey a) = readKeys a ++ targetKeys a.
Proof.
  unfold popTargetKey. destruct (targetKeys a) as [|t rest] eqn:Ht.
  - rewrite Ht. reflexivity.
  - cbn. rewrite <- app_assoc. reflexivity.
Qed.

Lemma popTargetKey_length (a : AmazonS3) :
  List.length (targetKeys (popTargetKey a)) = pred (List.length (targetKeys a)).
Proof.
  unfold popTargetKey. destruct (targetKeys a) eqn:Ht; [rewrite Ht|]; reflexivity.
Qed.

Section LoopFacts.

Variable lib : Lib.
Variable aws : Aws.

Lemma loop_keeps_pop (a0 a : AmazonS3) : loop_keeps a0 a -> loop_keeps a0 (popTargetKey a).
Proof.
  intros [Hs Hh]. split.
  - eapply same_clients_trans; [exact Hs|apply popTargetKey_same].
  - intro H0. unfold no_handles. rewrite popTargetKey_keys. exact (Hh H0).
Qed.

Lemma loop_keeps_retry (a0 a : AmazonS3) target rest n :
  targetKeys a = target :: rest -> loop_keeps a0 a ->
  loop_keeps a0 (set_targetKeys (set_attempts n target :: rest) a).
Proof.
  intros Ht [Hs Hh]. split.
  - unfold same_clients in *. cbn. exact Hs.
  - intro H0. specialize (Hh H0). unfold no_handles in *. cbn.
    rewrite Ht in Hh. apply Forall_app in Hh. destruct Hh as [Hr Htk].
    apply Forall_app. split; [exact Hr|].
    inversion Htk; subst. constructor; assumption.
Qed.

Lemma read_loop_keeps :
  forall fuel timeoutAt msg a w m e a' w',
    read_loop lib aws fuel timeoutAt msg a w = Returns (m, e, a', w') -> loop_keeps a a'.
Proof.
  intros. eapply (@read_loop_preserves lib aws (loop_keeps a)); eauto.
  - apply loop_keeps_pop.
  - intros; eapply loop_keeps_retry; eauto.
  - split; [apply same_clients_refl|auto].
Qed.

Lemma readFromMgr_loop_keeps :
  forall fuel timeoutAt msg a w m e a' w',
    readFromMgr_loop aws fuel timeoutAt msg a w = Returns (m, e, a', w') -> loop_keeps a a'.
Proof.
  intros. eapply (@readFromMgr_loop_preserves aws (loop_keeps a)); eauto.
  - apply loop_keeps_pop.
  - intros; eapply loop_keeps_retry; eauto.
  - split; [apply same_clients_refl|auto].
Qed.

(** [readSQSEvents] only appends to the target keys. *)
Lemma messageLoop_same (sqsMsg : SQSMessage) (a : AmazonS3) (duds : list Entry) :
  same_clients a (fst (messageLoop lib sqsMsg (a, duds))) /\
  readKeys (fst (messageLoop lib sqsMsg (a, duds))) = readKeys a.
Proof.
  unfold messageLoop.
  repeat match goal with
         | |- context [match ?x with _ => _ end] => destruct x
         end; cbn; repeat split.
Qed.

Lemma messageLoop_fold_same (messages : list SQSMessage) :
  forall a duds,
    let st := fold_left (fun st sqsMsg => messageLoop lib sqsMsg st) messages (a, duds) in
    same_clients a (fst st) /\ readKeys (fst st) = readKeys a.
Proof.
  induction messages as [|m ms IH]; intros a duds; cbv zeta; cbn [fold_left].
  - split; [apply same_clients_refl|reflexivity].
  - destruct (messageLoop lib m (a, duds)) as [a1 duds1] eqn:Hm.
    pose proof (messageLoop_same m a duds) as [Hs Hr]. rewrite Hm in Hs, Hr. cbn in Hs, Hr.
    destruct (IH a1 duds1) as [Hs' Hr']. split.
    + exact (same_clients_trans _ _ _ Hs Hs').
    + rewrite Hr'. exact Hr.
Qed.

Lemma readSQSEvents_same :
  forall a w e a' w',
    readSQSEvents lib aws a w = Returns (e, a', w') ->
    same_clients a a' /\ readKeys a' = readKeys a.
Proof.
  intros a w e a' w' H. unfold readSQSEvents in H.
  destruct (sqs a) as [q|]; [|discriminate H].
  destruct (ReceiveMessage aws _ _ _ _) as [err|messages].
  - injection H as <- <- <-. split; [apply same_clients_refl|reflexivity].
  - pose proof (messageLoop_fold_same messages a []) as Hf. cbn zeta in Hf.
    destruct (fold_left _ messages (a, [])) as [a1 duds]. cbn [fst] in Hf.
    destruct (deleteMessageBatches _ _ _ _ _); try discriminate H.
    destruct (Nat.eqb _ 0); injection H as <- <- <-; exact Hf.
Qed.

End LoopFacts.

Lemma Inv_step (a a' : AmazonS3) :
  Inv a -> session a <> None -> same_clients a a' ->
  (sqs a = None -> no_handles a') -> Inv a'.
Proof.
  intros [Hd Hc Hh Hb] Hsess (Hconf & Hs & Hs3 & Hdl & Hsqs & _) Hnh.
  constructor.
  - intro H. congruence.
  - intros _. rewrite Hs3, Hdl, Hsqs, Hconf. auto.
  - intro H. apply Hnh. congruence.
  - rewrite Hconf. exact Hb.
Qed.

Lemma NewAmazonS3_Inv (lib : Lib) (c : AmazonS3Config) (a : AmazonS3) :
  NewAmazonS3 lib c = inr a -> Inv a.
Proof.
  unfold NewAmazonS3. intro H.
  destruct (if Nat.ltb 0 (len_str (Timeout c)) then _ else _) as [err|tout];
    [discriminate H|].
  destruct (Z.ltb_spec (MaxBatchCount c) 1) as [Hlt|Hge]; [discriminate H|].
  injection H as <-. constructor; cbn.
  - auto.
  - intro H; congruence.
  - intros _. constructor.
  - exact Hge.
Qed.

Lemma Connect_Inv (aws : Aws) (a : AmazonS3) (w : World) res a' w' :
  Inv a -> Connect aws a w = Returns (res, a', w') -> Inv a'.
Proof.
  intros HI H. unfold Connect in H.
  destruct (session a) as [s|] eqn:Hsess.
  - injection H as <- <- <-. exact HI.
  - destruct (GetSession aws (tick w)) as [err|sess].
    + injection H as <- <- <-. exact HI.
    + destruct HI as [Hd Hc Hh Hb]. destruct (Hd Hsess) as [Hsqs Hrk].
      assert (Hnew : forall keys,
                 Forall (fun k => sqsHandle k = None)
                   (readKeys a ++ targetKeys a ++
                    map (fun key => mkObjKey key "" (Retries (conf a)) None) keys)).
      { intro keys. rewrite app_assoc. apply Forall_app. split; [exact (Hh Hsqs)|].
        apply Forall_forall. intros k Hk. apply in_map_iff in Hk.
        destruct Hk as [key [<- _]]. reflexivity. }
      destruct (Nat.eqb_spec (len_str (SQSURL (conf a))) 0) as [Hurl|Hurl].
      * apply len_str_zero in Hurl.
        destruct (ListObjectsPages aws _ _ _) as [pages [e|]];
          injection H as <- <- <-; constructor; cbn; auto;
          try (intro; congruence).
        intros _. repeat split; try discriminate; intro; congruence.
      * injection H as <- <- <-. constructor; cbn; auto; try (intro; congruence).
        intros _. repeat split; try discriminate.
        intros _ He. apply Hurl. apply len_str_zero. exact He.
Qed.

Lemma Acknowledge_Inv (err : option error) (a : AmazonS3) (w : World) res a' w' :
  Inv a -> Acknowledge err a w = Returns (res, a', w') -> Inv a'.
Proof.
  intros [Hd Hc Hh Hb] H. unfold Acknowledge in H. destruct err as [e|].
  - injection H as <- <- <-. constructor; cbn.
    + intro Hs. split; [apply Hd; exact Hs|reflexivity].
    + exact Hc.
    + exact Hh.
    + exact Hb.
  - destruct (ack_readKeys _ _ _ _) as [[hs w1]| |]; try discriminate H.
    destruct (deleteMessageBatches _ _ _ _ _); try discriminate H.
    injection H as <- <- <-. constructor; cbn.
    + intro Hs. split; [apply Hd; exact Hs|reflexivity].
    + exact Hc.
    + intro Hq. specialize (Hh Hq). apply Forall_app in Hh. tauto.
    + exact Hb.
Qed.

Section ReadInv.

Variable lib : Lib.
Variable aws : Aws.
Variable loop : nat -> Z -> Message -> AmazonS3 -> World -> Outcome ReadResult.
Hypothesis loop_ok :
  forall fuel timeoutAt msg a w m e a' w',
    loop fuel timeoutAt msg a w = Returns (m, e, a', w') -> loop_keeps a a'.

Lemma read_with_Inv (a : AmazonS3) (w : World) m e a' w' :
  Inv a -> read_with lib aws loop a w = Returns (m, e, a', w') -> Inv a'.
Proof.
  intros HI H. unfold read_with in H.
  destruct (session a) as [s|] eqn:Hsess; [|injection H as <- <- <- <-; exact HI].
  assert (Hs : session a <> None) by congruence.
  assert (Hbatch : forall a1 w1,
             same_clients a a1 -> (sqs a = None -> no_handles a1) ->
             (if Nat.eqb (List.length (targetKeys a1)) 0
              then Returns (None, Some ErrTimeout, a1, w1)
              else loop (S (List.length (targetKeys a1))) (Now aws (tick w) + timeout a)
                     Message_New a1 w1) = Returns (m, e, a', w') -> Inv a').
  { intros a1 w1 Hsame Hnh Hb.
    destruct (Nat.eqb (List.length (targetKeys a1)) 0).
    - injection Hb as <- <- <- <-. eapply Inv_step; eauto.
    - apply loop_ok in Hb. destruct Hb as [Hs1 Hh1].
      eapply Inv_step; [exact HI|exact Hs| |].
      + eapply same_clients_trans; eauto.
      + intro Hq. apply Hh1. apply Hnh. exact Hq. }
  destruct (Nat.eqb (List.length (targetKeys a)) 0) eqn:Hn.
  - destruct (sqs a) as [q|] eqn:Hq.
    + destruct (readSQSEvents lib aws a (clock_read w)) as [[[e1 a1] w1]| |] eqn:Hr;
        try discriminate H.
      apply readSQSEvents_same in Hr. destruct Hr as [Hsame Hrk].
      destruct e1 as [err|].
      * injection H as <- <- <- <-.
        eapply Inv_step; eauto. intro; congruence.
      * eapply Hbatch; [exact Hsame| |exact H]. intro; congruence.
    + injection H as <- <- <- <-. exact HI.
  - eapply (Hbatch a (clock_read w)); [apply same_clients_refl| |rewrite Hn; exact H].
    intro Hq. exact (inv_handles HI Hq).
Qed.

End ReadInv.

Lemma Read_Inv (lib : Lib) (aws : Aws) (a : AmazonS3) (w : World) m e a' w' :
  Inv a -> Read lib aws a w = Returns (m, e, a', w') -> Inv a'.
Proof.
  intros HI H. unfold Read, read, readFromMgr in H. destruct (readMethod a).
  - eapply read_with_Inv; [|exact HI|exact H]. apply readFromMgr_loop_keeps.
  - eapply read_with_Inv; [|exact HI|exact H]. apply read_loop_keeps.
Qed.

Lemma reachable_Inv (lib : Lib) (a : AmazonS3) : reachable lib a -> Inv a.
Proof.
  induction 1 as [c a H|aws a w res a' w' _ IH H|aws a w m e a' w' _ IH H
                 |a w err res a' w' _ IH H].
  - eapply NewAmazonS3_Inv; eauto.
  - eapply Connect_Inv; eauto.
  - eapply Read_Inv; eauto.
  - eapply Acknowledge_Inv; eauto.
Qed.

(** ** [Acknowledge] *)

Lemma reachable_example_queue_new : reachable example_lib example_queue_new.
Proof. apply reach_New with (c := example_conf_queue). reflexivity. Qed.

Lemma reachable_example_queue_connected :
  reachable example_lib (snd (fst example_queue_connected)).
Proof.
  eapply reach_Connect with (aws := example_queue_aws) (w := example_world);
    [exact reachable_example_queue_new|reflexivity].
Qed.

Lemma reachable_example_queue_read :
  reachable example_lib (snd (fst example_queue_read)).
Proof.
  eapply reach_Read with (aws := example_queue_aws) (w := snd example_queue_connected);
    [exact reachable_example_queue_connected|reflexivity].
Qed.

(** The success branch on a state that satisfies the invariant. *)
Lemma Acknowledge_nil_spec (a : AmazonS3) (w : World) :
  Inv a ->
  exists batches w',
    Acknowledge None a w = Returns (None, set_readKeys [] a, w') /\
    trace w' = trace w ++
               (if DeleteObjects (conf a) then delete_requests (conf a) (readKeys a) else []) ++
               map (EvDeleteMessageBatch (SQSURL (conf a))) batches /\
    List.concat batches = handles_of (readKeys a) /\
    Forall batch_ok batches.
Proof.
  intros [Hd Hc Hh Hb].
  assert (Hs3 : DeleteObjects (conf a) = true -> readKeys a <> [] -> s3 a <> None).
  { intros _ Hne. destruct (session a) as [s|] eqn:Hs.
    - apply Hc. discriminate.
    - exfalso. apply Hne. apply Hd. reflexivity. }
  assert (Hq : handles_of (readKeys a) = [] \/ sqs a <> None).
  { destruct (sqs a) as [q|] eqn:Hq; [right; discriminate|left].
    apply handles_of_none. specialize (Hh eq_refl). apply Forall_app in Hh. tauto. }
  unfold Acknowledge. rewrite (@ack_readKeys_spec a (readKeys a) [] w Hs3). cbn [app].
  set (w1 := if DeleteObjects (conf a) then _ else w).
  destruct (@deleteMessageBatches_spec (List.length (handles_of (readKeys a))) (sqs a)
              (SQSURL (conf a)) (handles_of (readKeys a)) w1 (le_n _) Hq)
    as [batches [Hrun [Hcat Hall]]].
  exists batches. eexists. rewrite Hrun. split; [reflexivity|]. split; [|auto].
  cbn [trace]. subst w1. destruct (DeleteObjects (conf a)); cbn [trace].
  - rewrite app_assoc. reflexivity.
  - reflexivity.
Qed.

(** C1. [Acknowledge(nil)] on a reachable reader returns nil and empties the
    read keys; it requests the deletion of the object of every read key, in
    order, exactly when [delete_objects] is set, then submits the SQS handles
    of the read keys, all of them and in order, in [DeleteMessageBatch]
    requests of one to ten entries.  A key whose download fails on its last
    attempt is among the read keys: both loops of [Read] go on from
    [popTargetKey], which appends it to them. *)
Theorem Acknowledge_nil_deletes_read_keys :
  forall (lib : Lib) (a : AmazonS3) (w : World),
    reachable lib a ->
    (exists batches w',
        Acknowledge None a w = Returns (None, set_readKeys [] a, w') /\
        readKeys (set_readKeys [] a) = [] /\
        trace w' = trace w ++
                   (if DeleteObjects (conf a)
                    then delete_requests (conf a) (readKeys a) else []) ++
                   map (EvDeleteMessageBatch (SQSURL (conf a))) batches /\
        List.concat batches = handles_of (readKeys a) /\
        Forall batch_ok batches) /\
    (forall aws fuel timeoutAt msg target rest err,
        session a <> None ->
        targetKeys a = target :: rest ->
        Message_Len msg < MaxBatchCount (conf a) ->
        0 < timeoutAt - Now aws (tick w) ->
        int_wrap (attempts target - 1) = 0 ->
        let dropped := set_readKeys (readKeys a ++ [target]) (set_targetKeys rest a) in
        (GetObject aws (S (tick w)) (bucket_of (conf a) target) (s3Key target) = inl err ->
         read_loop lib aws (S fuel) timeoutAt msg a w =
           read_loop lib aws fuel timeoutAt msg dropped
             (emit (EvGetObject (bucket_of (conf a) target) (s3Key target)) (clock_read w))) /\
        (Download aws (S (tick w)) (bucket_of (conf a) target) (s3Key target) = inl err ->
         readFromMgr_loop aws (S fuel) timeoutAt msg a w =
           readFromMgr_loop aws fuel timeoutAt msg dropped
             (emit (EvDownload (bucket_of (conf a) target) (s3Key target)) (clock_read w)))).
Proof.
  intros lib a w Hreach. pose proof (reachable_Inv lib a Hreach) as HI. split.
  - destruct (Acknowledge_nil_spec a w HI) as [batches [w' [Hrun [Htr [Hcat Hall]]]]].
    exists batches, w'. repeat split; assumption.
  - intros aws fuel timeoutAt msg target rest err Hsess Htk Hlen Htime Hlast dropped.
    destruct (inv_connected HI Hsess) as [Hs3 [Hdl _]].
    apply Z.ltb_lt in Hlen, Htime.
    split; intro Hfail.
    + cbn [read_loop]. rewrite Htk, Hlen. cbn [negb]. rewrite Htime. cbn [negb].
      destruct (s3 a) as [c|]; [|congruence].
      cbn [clock_read tick]. rewrite Hfail. cbn [set_attempts attempts].
      rewrite Hlast. cbn [Z.eqb]. unfold popTargetKey. rewrite Htk. reflexivity.
    + cbn [readFromMgr_loop]. rewrite Htk, Hlen. cbn [negb]. rewrite Htime. cbn [negb].
      destruct (downloader a) as [c|]; [|congruence].
      cbn [clock_read tick]. rewrite Hfail. cbn [set_attempts attempts].
      rewrite Hlast. cbn [Z.eqb]. unfold popTargetKey. rewrite Htk. reflexivity.
Qed.

(** The theorem on the queue-driven example, after the [Read] that fetched
    ["k1"] and gave up ["k2"]. *)
Lemma Acknowledge_nil_deletes_read_keys_witness :
  exists batches w',
    Acknowledge None (snd (fst example_queue_read)) (snd example_queue_read) =
      Returns (None, set_readKeys [] (snd (fst example_queue_read)), w') /\
    readKeys (set_readKeys [] (snd (fst example_queue_read))) = [] /\
    trace w' = trace (snd example_queue_read) ++
               (if DeleteObjects (conf (snd (fst example_queue_read)))
                then delete_requests (conf (snd (fst example_queue_read)))
                       (readKeys (snd (fst example_queue_read)))
                else []) ++
               map (EvDeleteMessageBatch (SQSURL (conf (snd (fst example_queue_read))))) batches /\
    List.concat batches = handles_of (readKeys (snd (fst example_queue_read))) /\
    Forall batch_ok batches.
Proof.
  exact (proj1 (Acknowledge_nil_deletes_read_keys example_lib
                  (snd (fst example_queue_read)) (snd example_queue_read)
                  reachable_example_queue_read)).
Defined.

(** ** [Connect] *)

(** C5. On a reader whose session is set, [Connect] returns nil at once: the
    reader is unchanged, and so is the world, no listing is requested. *)
Theorem Connect_idempotent :
  forall (aws : Aws) (a : AmazonS3) (w : World),
    session a <> None ->
    Connect aws a w = Returns (None, a, w).
Proof.
  intros aws a w H. unfold Connect. destruct (session a); [reflexivity|congruence].
Qed.

Lemma Connect_idempotent_witness :
  session (snd (fst example_bucket_connected)) <> None /\
  Connect (example_aws []) (snd (fst example_bucket_connected)) (snd example_bucket_connected) =
    Returns (None, snd (fst example_bucket_connected), snd example_bucket_connected).
Proof.
  assert (H : session (snd (fst example_bucket_connected)) <> None)
    by (vm_compute; discriminate).
  split; [exact H|].
  exact (@Connect_idempotent (example_aws []) _ (snd example_bucket_connected) H).
Defined.

(** ** [Read]: it returns, and what it returns is bounded *)

Lemma conf_popTargetKey (a : AmazonS3) : conf (popTargetKey a) = conf a.
Proof. apply popTargetKey_same. Qed.

Lemma Message_Len_Append (m : Message) (p : Part) :
  Message_Len (Message_Append m p) = Message_Len m + 1.
Proof.
  unfold Message_Len, Message_Append. cbn [parts]. rewrite length_app. cbn [List.length]. lia.
Qed.

Ltac bool_facts :=
  repeat match goal with
         | H : negb _ = false |- _ => apply negb_false_iff in H
         | H : negb _ = true |- _ => apply negb_true_iff in H
         | H : (_ <? _) = true |- _ => apply Z.ltb_lt in H
         | H : (_ <? _) = false |- _ => apply Z.ltb_ge in H
         | H : (_ =? _) = true |- _ => apply Z.eqb_eq in H
         | H : (_ =? _) = false |- _ => apply Z.eqb_neq in H
         end.

Ltac split_hyp H :=
  repeat match type of H with
         | context [match ?x with _ => _ end] => destruct x eqn:?
         end.

Ltac split_goal :=
  repeat match goal with
         | |- context [match ?x with _ => _ end] => destruct x eqn:?
         end.

Section ReadFacts.

Variable lib : Lib.
Variable aws : Aws.

Lemma read_loop_bound :
  forall fuel timeoutAt msg a w m e a' w',
    read_loop lib aws fuel timeoutAt msg a w = Returns (Some m, e, a', w') ->
    Message_Len m <= Z.max (Message_Len msg) (MaxBatchCount (conf a)).
Proof.
  induction fuel as [|fuel IH]; intros timeoutAt msg a w m e a' w' H; [discriminate H|].
  cbn [read_loop] in H. split_hyp H; try discriminate H;
    try (injection H as <- <- <- <-; lia);
    apply IH in H; rewrite conf_popTargetKey in H; rewrite ?Message_Len_Append in H;
    bool_facts; lia.
Qed.

Lemma readFromMgr_loop_bound :
  forall fuel timeoutAt msg a w m e a' w',
    readFromMgr_loop aws fuel timeoutAt msg a w = Returns (Some m, e, a', w') ->
    Message_Len m <= Z.max (Message_Len msg) (MaxBatchCount (conf a)).
Proof.
  induction fuel as [|fuel IH]; intros timeoutAt msg a w m e a' w' H; [discriminate H|].
  cbn [readFromMgr_loop] in H. split_hyp H; try discriminate H;
    try (injection H as <- <- <- <-; lia);
    apply IH in H; rewrite conf_popTargetKey in H; rewrite ?Message_Len_Append in H;
    bool_facts; lia.
Qed.

Lemma read_loop_returns :
  forall fuel timeoutAt msg a w,
    (List.length (targetKeys a) < fuel)%nat -> s3 a <> None ->
    exists r, read_loop lib aws fuel timeoutAt msg a w = Returns r.
Proof.
  induction fuel as [|fuel IH]; intros timeoutAt msg a w Hfuel Hs3; [lia|].
  cbn [read_loop]. split_goal; try (eexists; reflexivity); try congruence;
    (apply IH;
     [ rewrite popTargetKey_length;
       match goal with H : targetKeys a = _ |- _ => rewrite H end;
       cbn [List.length pred] in *; lia
     | destruct (popTargetKey_same a) as (_ & _ & Hsame & _); rewrite Hsame; congruence ]).
Qed.

Lemma readFromMgr_loop_returns :
  forall fuel timeoutAt msg a w,
    (List.length (targetKeys a) < fuel)%nat -> downloader a <> None ->
    exists r, readFromMgr_loop aws fuel timeoutAt msg a w = Returns r.
Proof.
  induction fuel as [|fuel IH]; intros timeoutAt msg a w Hfuel Hs3; [lia|].
  cbn [readFromMgr_loop]. split_goal; try (eexists; reflexivity); try congruence;
    (apply IH;
     [ rewrite popTargetKey_length;
       match goal with H : targetKeys a = _ |- _ => rewrite H end;
       cbn [List.length pred] in *; lia
     | destruct (popTargetKey_same a) as (_ & _ & _ & Hsame & _); rewrite Hsame; congruence ]).
Qed.

Lemma readSQSEvents_returns (a : AmazonS3) (w : World) :
  sqs a <> None -> exists r, readSQSEvents lib aws a w = Returns r.
Proof.
  intro Hq. unfold readSQSEvents. destruct (sqs a) as [q|] eqn:Hsqs; [|congruence].
  destruct (ReceiveMessage aws _ _ _ _) as [err|messages]; [eexists; reflexivity|].
  pose proof (messageLoop_fold_same lib messages a []) as Hf. cbv zeta in Hf.
  destruct (fold_left _ messages (a, [])) as [a1 duds]. cbn [fst] in Hf.
  destruct Hf as [(_ & _ & _ & _ & Hsame & _) _].
  destruct (@deleteMessageBatches_spec (List.length duds) (sqs a1) (SQSURL (conf a)) duds
              (emit (EvReceiveMessage (SQSURL (conf a)) (SQSMaxMessages (conf a))
                       (Z.quot (timeout a) 1000000000)) w) (le_n _))
    as [batches [Hrun _]].
  { right. congruence. }
  rewrite Hrun. destruct (Nat.eqb _ 0); eexists; reflexivity.
Qed.

Variable loop : nat -> Z -> Message -> AmazonS3 -> World -> Outcome ReadResult.
Hypothesis loop_keeps_ok :
  forall fuel timeoutAt msg a w m e a' w',
    loop fuel timeoutAt msg a w = Returns (m, e, a', w') -> loop_keeps a a'.
Hypothesis loop_bound :
  forall fuel timeoutAt msg a w m e a' w',
    loop fuel timeoutAt msg a w = Returns (Some m, e, a', w') ->
    Message_Len m <= Z.max (Message_Len msg) (MaxBatchCount (conf a)).
Hypothesis loop_returns :
  forall fuel timeoutAt msg a w,
    (List.length (targetKeys a) < fuel)%nat -> s3 a <> None -> downloader a <> None ->
    exists r, loop fuel timeoutAt msg a w = Returns r.

Lemma read_with_returns (a : AmazonS3) (w : World) :
  Inv a -> exists r, read_with lib aws loop a w = Returns r.
Proof.
  intro HI. unfold read_with.
  destruct (session a) as [s|] eqn:Hsess; [|eexists; reflexivity].
  assert (Hs : session a <> None) by congruence.
  destruct (inv_connected HI Hs) as [Hs3 [Hdl _]].
  assert (Hbatch : forall a1 w1, same_clients a a1 ->
             exists r,
               (if Nat.eqb (List.length (targetKeys a1)) 0
                then Returns (None, Some ErrTimeout, a1, w1)
                else loop (S (List.length (targetKeys a1))) (Now aws (tick w) + timeout a)
                       Message_New a1 w1) = Returns r).
  { intros a1 w1 (_ & _ & Hs3' & Hdl' & _).
    destruct (Nat.eqb _ 0); [eexists; reflexivity|].
    apply loop_returns; [lia|congruence|congruence]. }
  destruct (Nat.eqb (List.length (targetKeys a)) 0) eqn:Hn.
  - destruct (sqs a) as [q|] eqn:Hq; [|eexists; reflexivity].
    destruct (@readSQSEvents_returns a (clock_read w)) as [[[e1 a1] w1] Hr]; [congruence|].
    rewrite Hr. apply readSQSEvents_same in Hr. destruct Hr as [Hsame _].
    destruct e1; [eexists; reflexivity|]. apply Hbatch. exact Hsame.
  - destruct (Hbatch a (clock_read w) (same_clients_refl a)) as [r Hr].
    rewrite Hn in Hr. eauto.
Qed.

Lemma read_with_bound (a : AmazonS3) (w : World) m e a' w' :
  1 <= MaxBatchCount (conf a) ->
  read_with lib aws loop a w = Returns (Some m, e, a', w') ->
  Message_Len m <= MaxBatchCount (conf a).
Proof.
  intros Hmax H. unfold read_with in H.
  destruct (session a); [|discriminate H].
  assert (Hbatch : forall a1 w1, conf a1 = conf a ->
             (if Nat.eqb (List.length (targetKeys a1)) 0
              then Returns (None, Some ErrTimeout, a1, w1)
              else loop (S (List.length (targetKeys a1))) (Now aws (tick w) + timeout a)
                     Message_New a1 w1) = Returns (Some m, e, a', w') ->
             Message_Len m <= MaxBatchCount (conf a)).
  { intros a1 w1 Hconf Hb. destruct (Nat.eqb (List.length (targetKeys a1)) 0);
      [discriminate Hb|].
    apply loop_bound in Hb. rewrite Hconf in Hb. cbn in Hb. lia. }
  destruct (Nat.eqb (List.length (targetKeys a)) 0) eqn:Hn.
  - destruct (sqs a); [|discriminate H].
    destruct (readSQSEvents lib aws a (clock_read w)) as [[[e1 a1] w1]| |] eqn:Hr;
      try discriminate H.
    apply readSQSEvents_same in Hr. destruct Hr as [(Hconf & _) _].
    destruct e1; [discriminate H|]. eapply Hbatch; eauto.
  - eapply (Hbatch a (clock_read w)); [reflexivity|]. rewrite Hn. exact H.
Qed.

End ReadFacts.

Lemma Read_returns (lib : Lib) (aws : Aws) (a : AmazonS3) (w : World) :
  Inv a -> exists r, Read lib aws a w = Returns r.
Proof.
  intro HI. unfold Read, read, readFromMgr. destruct (readMethod a).
  - apply read_with_returns; [|exact HI].
    intros; apply readFromMgr_loop_returns; assumption.
  - apply read_with_returns; [|exact HI].
    intros; apply read_loop_returns; assumption.
Qed.

Lemma Read_bound (lib : Lib) (aws : Aws) (a : AmazonS3) (w : World) m e a' w' :
  1 <= MaxBatchCount (conf a) ->
  Read lib aws a w = Returns (Some m, e, a', w') ->
  Message_Len m <= MaxBatchCount (conf a).
Proof.
  intros Hmax H. unfold Read, read, readFromMgr in H. destruct (readMethod a).
  - eapply read_with_bound; [|exact Hmax|exact H]. apply readFromMgr_loop_bound.
  - eapply read_with_bound; [|exact Hmax|exact H]. apply read_loop_bound.
Qed.

Lemma reachable_example_bucket_connected :
  reachable example_lib (snd (fst example_bucket_connected)).
Proof.
  eapply reach_Connect with (aws := example_aws []) (w := example_world);
    [apply reach_New with (c := example_conf_bucket)|]; reflexivity.
Qed.

Lemma reachable_example_bucket_read :
  reachable example_lib (snd (fst example_bucket_read)).
Proof.
  eapply reach_Read with (aws := example_aws []) (w := snd example_bucket_connected);
    [exact reachable_example_bucket_connected|reflexivity].
Qed.

(** C4. [Read] on a reachable reader returns, and a message it returns has at
    most [max_batch_count] parts; [NewAmazonS3] returns an error, and no
    reader, for every configuration with [max_batch_count] below one. *)
Theorem Read_batch_bounded :
  forall (lib : Lib) (aws : Aws) (a : AmazonS3) (w : World),
    reachable lib a ->
    (exists msg err a' w',
        Read lib aws a w = Returns (msg, err, a', w') /\
        forall m, msg = Some m ->
                  Z.of_nat (List.length (parts m)) <= MaxBatchCount (conf a)) /\
    (forall c, MaxBatchCount c < 1 -> exists err, NewAmazonS3 lib c = inl err).
Proof.
  intros lib aws a w Hreach. pose proof (reachable_Inv lib a Hreach) as HI. split.
  - destruct (Read_returns lib aws a w HI) as [[[[msg err] a'] w'] Hr].
    exists msg, err, a', w'. split; [exact Hr|].
    intros m ->. exact (Read_bound lib aws a w m err a' w' (inv_batch HI) Hr).
  - intros c Hc. unfold NewAmazonS3.
    destruct (if Nat.ltb 0 (len_str (Timeout c)) then _ else _) as [err|tout];
      [eexists; reflexivity|].
    apply Z.ltb_lt in Hc. rewrite Hc. eexists; reflexivity.
Qed.

Lemma Read_batch_bounded_witness :
  (exists msg err a' w',
      Read example_lib example_queue_aws
        (snd (fst example_queue_connected)) (snd example_queue_connected) =
        Returns (msg, err, a', w') /\
      forall m, msg = Some m ->
                Z.of_nat (List.length (parts m)) <=
                MaxBatchCount (conf (snd (fst example_queue_connected)))) /\
  (forall c, MaxBatchCount c < 1 -> exists err, NewAmazonS3 example_lib c = inl err).
Proof.
  exact (Read_batch_bounded example_lib example_queue_aws
           (snd (fst example_queue_connected)) (snd example_queue_connected)
           reachable_example_queue_connected).
Defined.

(** C3. [Read] returns [ErrNotConnected] whenever the session is nil.  On a
    reachable, connected reader with no target key left: without an SQS URL it
    returns [ErrTypeClosed]; with one, when [ReceiveMessage] succeeds and the
    messages received add no target key, it returns [ErrTimeout].  No message
    comes with any of the three. *)
Theorem Read_typed_errors :
  forall (lib : Lib) (aws : Aws) (a : AmazonS3) (w : World),
    (session a = None ->
     Read lib aws a w = Returns (None, Some ErrNotConnected, a, w)) /\
    (reachable lib a -> session a <> None -> targetKeys a = [] ->
     (SQSURL (conf a) = "" ->
      Read lib aws a w = Returns (None, Some ErrTypeClosed, a, clock_read w)) /\
     (SQSURL (conf a) <> "" ->
      forall messages,
        ReceiveMessage aws (S (tick w)) (SQSURL (conf a)) (SQSMaxMessages (conf a))
          (Z.quot (timeout a) 1000000000) = inr messages ->
        targetKeys (fst (fold_left (fun st sqsMsg => messageLoop lib sqsMsg st)
                           messages (a, []))) = [] ->
        exists a' w', Read lib aws a w = Returns (None, Some ErrTimeout, a', w'))).
Proof.
  intros lib aws a w. split.
  - intro Hs. unfold Read, read, readFromMgr, read_with. rewrite Hs.
    destruct (readMethod a); reflexivity.
  - intros Hreach Hs Htk. pose proof (reachable_Inv lib a Hreach) as HI.
    destruct (inv_connected HI Hs) as (_ & _ & Hq).
    destruct (session a) as [s|] eqn:Hsess; [|congruence].
    split.
    + intro Hurl. assert (Hsqs : sqs a = None).
      { destruct (sqs a); [|reflexivity]. exfalso.
        exact (proj1 Hq ltac:(discriminate) Hurl). }
      unfold Read, read, readFromMgr, read_with. rewrite Hsess, Htk, Hsqs. cbn.
      destruct (readMethod a); reflexivity.
    + intros Hurl messages Hrecv Hnone.
      destruct (sqs a) as [q|] eqn:Hsqs; [|exfalso; exact (proj2 Hq Hurl eq_refl)].
      assert (Hev : exists a' w',
                 readSQSEvents lib aws a (clock_read w) = Returns (Some ErrTimeout, a', w')).
      { unfold readSQSEvents. rewrite Hsqs. cbn [clock_read tick]. rewrite Hrecv.
        pose proof (messageLoop_fold_same lib messages a []) as Hf. cbv zeta in Hf.
        destruct (fold_left _ messages (a, [])) as [a1 duds]. cbn [fst] in Hf, Hnone.
        destruct Hf as [(_ & _ & _ & _ & Hsame & _) _].
        match goal with
        | |- context [deleteMessageBatches ?f ?q0 ?u ?h ?w0] =>
            destruct (deleteMessageBatches_spec f q0 u h w0 (le_n _)) as [batches [Hrun _]];
              [right; congruence|]
        end.
        rewrite Hrun, Hnone. cbn. eauto. }
      destruct Hev as [a' [w' Hev]]. exists a', w'.
      unfold Read, read, readFromMgr, read_with. rewrite Hsess, Htk, Hsqs. cbn [List.length Nat.eqb].
      rewrite Hev. destruct (readMethod a); reflexivity.
Qed.

(** The three errors, on the examples: the reader just built; the bucket
    reader after its only object was consumed; the queue reader when the queue
    delivers nothing. *)
Lemma Read_typed_errors_witness :
  Read example_lib (example_aws []) example_queue_new example_world =
    Returns (None, Some ErrNotConnected, example_queue_new, example_world) /\
  Read example_lib (example_aws []) (snd (fst example_bucket_read)) (snd example_bucket_read) =
    Returns (None, Some ErrTypeClosed, snd (fst example_bucket_read),
             clock_read (snd example_bucket_read)) /\
  exists a' w',
    Read example_lib (example_aws []) (snd (fst example_queue_connected))
      (snd example_queue_connected) = Returns (None, Some ErrTimeout, a', w').
Proof.
  split; [|split].
  - exact (proj1 (Read_typed_errors example_lib (example_aws []) example_queue_new
                    example_world) eq_refl).
  - refine (proj1 (proj2 (Read_typed_errors example_lib (example_aws [])
                            (snd (fst example_bucket_read)) (snd example_bucket_read))
                     reachable_example_bucket_read _ eq_refl) eq_refl).
    vm_compute; discriminate.
  - refine (proj2 (proj2 (Read_typed_errors example_lib (example_aws [])
                            (snd (fst example_queue_connected))
                            (snd example_queue_connected))
                     reachable_example_queue_connected _ eq_refl) _ [] eq_refl eq_refl);
      vm_compute; discriminate.
Defined.

(** C9. A reachable state from which [Read] returns a message of zero parts
    with a nil error: the bucket reader, connected, whose only target key has
    one attempt left and cannot be downloaded.  The key is popped into the
    read keys inside the loop, which then ends on the empty message. *)
Theorem Read_returns_empty_message :
  exists (lib : Lib) (aws : Aws) (a : AmazonS3) (w : World) (a' : AmazonS3) (w' : World),
    reachable lib a /\
    readMethod a = method_read /\
    targetKeys a = [mkObjKey "gone" "" 1 None] /\
    Read lib aws a w = Returns (Some (mkMessage []), None, a', w') /\
    Message_Len (mkMessage []) = 0 /\
    targetKeys a' = [] /\
    readKeys a' = [mkObjKey "gone" "" 1 None] /\
    trace w' = trace w ++ [EvGetObject "b" "gone"].
Proof.
  exists example_lib, (example_aws []), (snd (fst example_bucket_connected)),
    (snd example_bucket_connected).
  eexists. eexists. split; [exact reachable_example_bucket_connected|].
  repeat split.
Qed.

(** ** [readSQSEvents]: where the SQS handle goes *)

Lemma update_last_snoc (A : Type) (f : A -> A) (l : list A) (x : A) :
  update_last f (l ++ [x]) = l ++ [f x].
Proof.
  induction l as [|y l IH]; [reflexivity|].
  cbn [app update_last]. rewrite IH.
  destruct (l ++ [x]) eqn:E; [destruct l; discriminate E|reflexivity].
Qed.

Lemma newTargetKeys_s3Key (retries : Z) (buckets : list string) (newTargets : list string) :
  forall i, map s3Key (newTargetKeys retries buckets i newTargets) = newTargets.
Proof.
  induction newTargets as [|t ts IH]; intro i; cbn; [reflexivity|]. rewrite IH. reflexivity.
Qed.

Lemma newTargetKeys_no_handle (retries : Z) (buckets : list string) (newTargets : list string) :
  forall i, Forall (fun k => sqsHandle k = None) (newTargetKeys retries buckets i newTargets).
Proof.
  induction newTargets as [|t ts IH]; intro i; cbn; constructor; auto.
Qed.

Lemma handles_of_In (keys : list objKey) (h : Entry) :
  In h (handles_of keys) <-> exists k, In k keys /\ sqsHandle k = Some h.
Proof.
  unfold handles_of. rewrite in_flat_map. split.
  - intros [k [Hk Hin]]. exists k. split; [exact Hk|].
    destruct (sqsHandle k) as [h'|]; [|destruct Hin].
    destruct Hin as [->|[]]. reflexivity.
  - intros [k [Hk Hh]]. exists k. split; [exact Hk|]. rewrite Hh. left. reflexivity.
Qed.

(** C10. An SQS message whose body path resolves to a list with more than
    one key under the prefix appends those keys to the target keys with the
    message's handle on the last of them and on no other.  [Acknowledge(nil)]
    submits a handle exactly when one of the keys being acknowledged carries
    it, hence this message's handle with the batch that holds the last key.
    When the body path resolves to a single string, the one key appended
    carries the handle and the first of the extracted buckets, or none. *)
Theorem readSQSEvents_handle_on_last_key :
  forall (lib : Lib) (a : AmazonS3) (dudMessageHandles : list Entry) (sqsMsg : SQSMessage)
         (body : string) (gObj0 gObj : Value),
    Body sqsMsg = Some body ->
    ParseJSON lib body = inr gObj0 ->
    openEnvelope lib a gObj0 = Some gObj ->
    let msgHandle := mkEntry (MessageId sqsMsg) (MsgReceiptHandle sqsMsg) in
    (forall t,
        Search lib gObj (sqsBodyPath a) = VArr t ->
        let newTargets := filter (fun p => HasPrefix p (Prefix (conf a)))
                            (digStrsFromSlices t) in
        (1 < List.length newTargets)%nat ->
        exists front lastKey,
          messageLoop lib sqsMsg (a, dudMessageHandles) =
            (set_targetKeys (targetKeys a ++ front ++ [lastKey]) a, dudMessageHandles) /\
          map s3Key (front ++ [lastKey]) = newTargets /\
          Forall (fun k => sqsHandle k = None) front /\
          sqsHandle lastKey = Some msgHandle /\
          handles_of front = [] /\
          handles_of (front ++ [lastKey]) = [msgHandle]) /\
    (forall b w,
        reachable lib b ->
        exists batches w',
          Acknowledge None b w = Returns (None, set_readKeys [] b, w') /\
          trace w' = trace w ++
                     (if DeleteObjects (conf b)
                      then delete_requests (conf b) (readKeys b) else []) ++
                     map (EvDeleteMessageBatch (SQSURL (conf b))) batches /\
          forall h, In h (List.concat batches) <->
                    exists k, In k (readKeys b) /\ sqsHandle k = Some h) /\
    (forall t,
        Search lib gObj (sqsBodyPath a) = VStr t ->
        HasPrefix t (Prefix (conf a)) = true ->
        messageLoop lib sqsMsg (a, dudMessageHandles) =
          (set_targetKeys
             (targetKeys a ++
              [mkObjKey t (hd "" (extractBuckets lib a gObj)) (Retries (conf a))
                 (Some msgHandle)]) a,
           dudMessageHandles)).
Proof.
  intros lib a duds sqsMsg body gObj0 gObj Hbody Hparse Henv msgHandle.
  split; [|split].
  - intros t Hsearch newTargets Hlen.
    set (keys := newTargetKeys (Retries (conf a)) (extractBuckets lib a gObj) 0 newTargets).
    assert (Hne : keys <> []).
    { subst keys. destruct newTargets; [cbn in Hlen; lia|discriminate]. }
    pose proof (app_removelast_last (mkObjKey "" "" 0 None) Hne) as Hsplit.
    set (front := removelast keys) in *.
    set (lastKey := last keys (mkObjKey "" "" 0 None)) in *.
    assert (Hnone : Forall (fun k => sqsHandle k = None) (front ++ [lastKey])).
    { rewrite <- Hsplit. apply newTargetKeys_no_handle. }
    apply Forall_app in Hnone. destruct Hnone as [Hfront _].
    exists front, (set_sqsHandle (Some msgHandle) lastKey).
    split; [|split; [|split; [|split; [|split]]]].
    + unfold messageLoop. rewrite Hbody, Hparse, Henv, Hsearch.
      fold newTargets. fold keys.
      destruct newTargets as [|t1 ts] eqn:Hnt; [cbn in Hlen; lia|].
      rewrite Hsplit, app_assoc, update_last_snoc, <- app_assoc. reflexivity.
    + rewrite map_app. cbn [map set_sqsHandle s3Key].
      change [s3Key lastKey] with (map s3Key [lastKey]). rewrite <- map_app, <- Hsplit.
      apply newTargetKeys_s3Key.
    + exact Hfront.
    + reflexivity.
    + apply handles_of_none. exact Hfront.
    + rewrite handles_of_app, (handles_of_none _ Hfront). reflexivity.
  - intros b w Hreach.
    destruct (Acknowledge_nil_spec b w (reachable_Inv lib b Hreach))
      as [batches [w' [Hrun [Htr [Hcat _]]]]].
    exists batches, w'. split; [exact Hrun|]. split; [exact Htr|].
    intro h. rewrite Hcat. apply handles_of_In.
  - intros t Hsearch Hprefix.
    unfold messageLoop. rewrite Hbody, Hparse, Henv, Hsearch, Hprefix.
    destruct (extractBuckets lib a gObj); reflexivity.
Qed.

(** The theorem on the event that names ["k1"] and ["k2"], and on the event
    that names ["k1"] alone with the buckets ["b1"] and ["b2"]. *)
Lemma readSQSEvents_handle_on_last_key_witness :
  let msgHandle := mkEntry (Some "id-1") (Some "receipt-1") in
  (exists front lastKey,
      messageLoop example_lib (example_message "two-keys") (example_queue_new, []) =
        (set_targetKeys (targetKeys example_queue_new ++ front ++ [lastKey]) example_queue_new,
         []) /\
      map s3Key (front ++ [lastKey]) = ["k1"; "k2"] /\
      Forall (fun k => sqsHandle k = None) front /\
      sqsHandle lastKey = Some msgHandle /\
      handles_of front = [] /\
      handles_of (front ++ [lastKey]) = [msgHandle]) /\
  messageLoop example_lib (example_message "one-key") (example_buckets_new, []) =
    (set_targetKeys [mkObjKey "k1" "b1" 1 (Some msgHandle)] example_buckets_new, []).
Proof.
  split.
  - refine (proj1 (readSQSEvents_handle_on_last_key example_lib example_queue_new []
                     (example_message "two-keys") "two-keys"
                     (example_event ["k1"; "k2"]) (example_event ["k1"; "k2"])
                     eq_refl eq_refl eq_refl)
              [VStr "k1"; VStr "k2"] eq_refl _).
    vm_compute. lia.
  - exact (proj2 (proj2 (readSQSEvents_handle_on_last_key example_lib example_buckets_new []
                           (example_message "one-key") "one-key"
                           (VMap [("Records",
                                   VMap [("s3", VMap [("object", VMap [("key", VStr "k1")])]);
                                         ("bucket", VArr [VStr "b1"; VStr "b2"])])])
                           _ eq_refl eq_refl eq_refl))
             "k1" eq_refl eq_refl).
Defined.

(** ** The decompress processor *)

Lemma process_parts_spec (d : Processor.Decompress) (lParts : Z) (ps : list bytes) :
  forall (i : nat) (newParts : list bytes),
    Processor.process_parts d lParts (Z.of_nat i) ps newParts =
    newParts ++ Processor.parts_result_from d lParts i ps.
Proof.
  induction ps as [|part rest IH]; intros i newParts; cbn [Processor.process_parts
    Processor.parts_result_from].
  - symmetry. apply app_nil_r.
  - replace (Z.of_nat i + 1) with (Z.of_nat (S i)) by lia.
    unfold Processor.part_result.
    destruct (Processor.isTarget d lParts (Z.of_nat i)); cbn [negb].
    + destruct (Processor.decomp d part) as [err|newPart]; rewrite IH.
      * reflexivity.
      * rewrite <- app_assoc. reflexivity.
    + rewrite IH, <- app_assoc. reflexivity.
Qed.

Lemma parts_result_from_nil (d : Processor.Decompress) (lParts : Z) (ps : list bytes) :
  forall i : nat,
    Processor.parts_result_from d lParts i ps = [] <->
    (forall j part, nth_error ps j = Some part ->
                    Processor.isTarget d lParts (Z.of_nat (i + j)) = true /\
                    exists err, Processor.decomp d part = inl err).
Proof.
  induction ps as [|p rest IH]; intro i; cbn [Processor.parts_result_from].
  - split; [|reflexivity]. intros _ j part H. destruct j; discriminate H.
  - split.
    + intros H j part Hj. apply app_eq_nil in H. destruct H as [Hp Hrest].
      destruct j as [|j]; cbn in Hj.
      * injection Hj as <-. rewrite Nat.add_0_r. unfold Processor.part_result in Hp.
        destruct (Processor.isTarget d lParts (Z.of_nat i)); [|discriminate Hp].
        split; [reflexivity|].
        destruct (Processor.decomp d p) as [err|q]; [eauto|discriminate Hp].
      * replace (i + S j)%nat with (S i + j)%nat by lia.
        exact (proj1 (IH (S i)) Hrest j part Hj).
    + intro H.
      assert (Hp : Processor.part_result d lParts i p = []).
      { destruct (H 0%nat p eq_refl) as [Ht [err He]]. rewrite Nat.add_0_r in Ht.
        unfold Processor.part_result. rewrite Ht, He. reflexivity. }
      rewrite Hp. cbn [app].
      apply IH. intros j part Hj. replace (S i + j)%nat with (i + S j)%nat by lia.
      exact (H (S j) part Hj).
Qed.

(** C6. With [out] the parts the message is left with (a part that is not a
    target as it was, a target decompressed, or dropped when that fails, all
    in the order of the message): [ProcessMessage] returns no message and the
    response [NewSimpleResponse(nil)] exactly when [out] is empty, which is
    when every part is a target that fails to decompress; otherwise it returns
    the one message made of [out] and a nil response. *)
Theorem ProcessMessage_skips_or_sends :
  forall (d : Processor.Decompress) (msg : Processor.Message),
    let out := Processor.parts_result d msg in
    let lParts := Z.of_nat (List.length (Processor.Parts msg)) in
    (Processor.ProcessMessage d msg = ([], Some (Processor.NewSimpleResponse None)) <->
     out = []) /\
    (out = [] <->
     forall i part,
       nth_error (Processor.Parts msg) i = Some part ->
       Processor.isTarget d lParts (Z.of_nat i) = true /\
       exists err, Processor.decomp d part = inl err) /\
    (Processor.ProcessMessage d msg = ([], Some (Processor.NewSimpleResponse None)) \/
     Processor.ProcessMessage d msg = ([Processor.mkMessage out], None) /\ out <> []).
Proof.
  intros d msg out lParts.
  assert (Hrun : Processor.process_parts d lParts 0 (Processor.Parts msg) [] = out).
  { exact (process_parts_spec d lParts (Processor.Parts msg) 0 []). }
  unfold Processor.ProcessMessage. fold lParts. rewrite Hrun.
  split; [|split].
  - destruct out; cbn; split; intro H; try reflexivity; discriminate H.
  - exact (parts_result_from_nil d lParts (Processor.Parts msg) 0).
  - destruct out; cbn; [left; reflexivity|right]. split; [reflexivity|discriminate].
Qed.

Lemma example_gzip_round_trip : Processor.gzip_round_trip example_gzip example_compress.
Proof.
  intro b. eexists. split; [reflexivity|]. split; [|reflexivity].
  cbn [Processor.chunks]. induction b as [|x b IH]; [reflexivity|].
  cbn [map List.concat app]. rewrite IH. reflexivity.
Qed.

(** C7. For a gzip reader and a compressor that meet R1 at the level of the
    reader (opened on the compressed form of a payload it delivers that payload
    and then [io.EOF]), [gzipDecompress] of the compressed form of any byte
    string succeeds with exactly that byte string. *)
Theorem gzipDecompress_round_trip :
  forall (gz : Processor.Gzip) (compress : Processor.Compressor),
    Processor.gzip_round_trip gz compress ->
    forall b : bytes,
      Processor.gzipDecompress gz (compress b) = inr b.
Proof.
  intros gz compress Hgz b. destruct (Hgz b) as [zr [Hopen [Hdata Hend]]].
  unfold Processor.gzipDecompress, Processor.Buffer_ReadFrom.
  rewrite Hopen, Hend, Hdata. reflexivity.
Qed.

Lemma gzipDecompress_round_trip_witness :
  Processor.gzipDecompress example_gzip (example_compress [Byte.x68; Byte.x69]) =
    inr [Byte.x68; Byte.x69].
Proof.
  exact (gzipDecompress_round_trip example_gzip example_compress example_gzip_round_trip
           [Byte.x68; Byte.x69]).
Defined.

(** ** The input constructors *)

(** C8. [NewRedisList] hands the reader adaptor the Redis list reader inside
    a preserver, [NewNSQ] hands it the NSQ reader as it is.  With the
    preserver, a message read and then acknowledged with an error is what the
    next [Read] returns, and that [Read] leaves the connector underneath as it
    was. *)
Theorem NewRedisList_preserves_NewNSQ_does_not :
  forall (RedisListConfig RedisList NSQConfig NSQ : Type)
         (RedisList_ops : Input.ReaderType RedisList) (NSQ_ops : Input.ReaderType NSQ)
         (reader_NewRedisList : RedisListConfig -> error + RedisList)
         (reader_NewNSQ : NSQConfig -> error + NSQ)
         (conf : Input.Config RedisListConfig NSQConfig),
    (forall r, reader_NewRedisList (Input.Config_RedisList conf) = inr r ->
               @Input.NewRedisList RedisListConfig RedisList NSQConfig RedisList_ops
                 reader_NewRedisList conf =
               inr (@Input.mkReader "redis_list" (Input.Preserver RedisList)
                      (@Input.Preserver_ReaderType RedisList RedisList_ops)
                      (@Input.NewPreserver RedisList r))) /\
    (forall n, reader_NewNSQ (Input.Config_NSQ conf) = inr n ->
               @Input.NewNSQ RedisListConfig NSQConfig NSQ NSQ_ops reader_NewNSQ conf =
               inr (@Input.mkReader "nsq" NSQ NSQ_ops n)) /\
    (forall (p p1 p2 : Input.Preserver RedisList) (m : Message) (e : error)
            (res : option error),
        let ops := @Input.Preserver_ReaderType RedisList RedisList_ops in
        @Input.Read _ ops p = (Some m, None, p1) ->
        @Input.Acknowledge _ ops (Some e) p1 = (res, p2) ->
        @Input.Read _ ops p2 =
          (Some m, None, Input.mkPreserver (Input.upstream p2) (Some m) None)).
Proof.
  intros RedisListConfig RedisList NSQConfig NSQ RedisList_ops NSQ_ops
    reader_NewRedisList reader_NewNSQ conf.
  split; [|split].
  - intros r Hr. unfold Input.NewRedisList. rewrite Hr. reflexivity.
  - intros n Hn. unfold Input.NewNSQ. rewrite Hn. reflexivity.
  - intros p p1 p2 m e res ops Hread Hack. subst ops.
    assert (Hlast : Input.lastMessage p1 = Some m).
    { cbn in Hread. unfold Input.Preserver_Read in Hread.
      destruct (Input.retained p) as [m0|].
      - injection Hread as Hm Hp. subst. reflexivity.
      - destruct (Input.Read (Input.upstream p)) as [[msg err] r'].
        destruct err as [e0|]; [discriminate Hread|].
        injection Hread as Hm Hp. subst. reflexivity. }
    assert (Hret : Input.retained p2 = Some m).
    { cbn in Hack. unfold Input.Preserver_Acknowledge in Hack.
      destruct (Input.Acknowledge (Some e) (Input.upstream p1)) as [res' r'].
      injection Hack as Hres Hp. subst. exact Hlast. }
    cbn. unfold Input.Preserver_Read. rewrite Hret. reflexivity.
Qed.

(** ** After a failed acknowledgement *)

Section Requests.

Variable lib : Lib.
Variable aws : Aws.

(** The loops only add requests to the trace. *)
Lemma read_loop_extends :
  forall fuel timeoutAt msg a w m e a' w',
    read_loop lib aws fuel timeoutAt msg a w = Returns (m, e, a', w') ->
    exists evs, trace w' = trace w ++ evs.
Proof.
  induction fuel as [|fuel IH]; intros timeoutAt msg a w m e a' w' H; [discriminate H|].
  cbn [read_loop] in H. split_hyp H; try discriminate H;
    try (injection H as <- <- <- <-;
         first [ exists []; cbn [clock_read trace]; symmetry; apply app_nil_r
               | eexists; cbn [emit clock_read trace]; reflexivity ]);
    apply IH in H; destruct H as [evs H]; rewrite H;
    cbn [emit clock_read trace]; rewrite <- app_assoc; eexists; reflexivity.
Qed.

Lemma readFromMgr_loop_extends :
  forall fuel timeoutAt msg a w m e a' w',
    readFromMgr_loop aws fuel timeoutAt msg a w = Returns (m, e, a', w') ->
    exists evs, trace w' = trace w ++ evs.
Proof.
  induction fuel as [|fuel IH]; intros timeoutAt msg a w m e a' w' H; [discriminate H|].
  cbn [readFromMgr_loop] in H. split_hyp H; try discriminate H;
    try (injection H as <- <- <- <-;
         first [ exists []; cbn [clock_read trace]; symmetry; apply app_nil_r
               | eexists; cbn [emit clock_read trace]; reflexivity ]);
    apply IH in H; destruct H as [evs H]; rewrite H;
    cbn [emit clock_read trace]; rewrite <- app_assoc; eexists; reflexivity.
Qed.

(** With a target key, room in the batch and time left, the first request of
    a loop is for the object of the first target key. *)
Lemma read_loop_first_request :
  forall fuel timeoutAt msg a w k rest m e a' w',
    targetKeys a = k :: rest ->
    Message_Len msg < MaxBatchCount (conf a) ->
    0 < timeoutAt - Now aws (tick w) ->
    read_loop lib aws (S fuel) timeoutAt msg a w = Returns (m, e, a', w') ->
    exists evs,
      trace w' = trace w ++ EvGetObject (bucket_of (conf a) k) (s3Key k) :: evs.
Proof.
  intros fuel timeoutAt msg a w k rest m e a' w' Htk Hlen Htime H.
  apply Z.ltb_lt in Hlen, Htime.
  cbn [read_loop] in H. rewrite Htk, Hlen in H. cbn [negb] in H.
  rewrite Htime in H. cbn [negb] in H.
  split_hyp H; try discriminate H;
    try (injection H as <- <- <- <-; exists []; reflexivity);
    apply read_loop_extends in H; destruct H as [evs H]; exists evs; rewrite H;
    cbn [emit clock_read trace]; rewrite <- app_assoc; reflexivity.
Qed.

Lemma readFromMgr_loop_first_request :
  forall fuel timeoutAt msg a w k rest m e a' w',
    targetKeys a = k :: rest ->
    Message_Len msg < MaxBatchCount (conf a) ->
    0 < timeoutAt - Now aws (tick w) ->
    readFromMgr_loop aws (S fuel) timeoutAt msg a w = Returns (m, e, a', w') ->
    exists evs,
      trace w' = trace w ++ EvDownload (bucket_of (conf a) k) (s3Key k) :: evs.
Proof.
  intros fuel timeoutAt msg a w k rest m e a' w' Htk Hlen Htime H.
  apply Z.ltb_lt in Hlen, Htime.
  cbn [readFromMgr_loop] in H. rewrite Htk, Hlen in H. cbn [negb] in H.
  rewrite Htime in H. cbn [negb] in H.
  split_hyp H; try discriminate H;
    try (injection H as <- <- <- <-; exists []; reflexivity);
    apply readFromMgr_loop_extends in H; destruct H as [evs H]; exists evs; rewrite H;
    cbn [emit clock_read trace]; rewrite <- app_assoc; reflexivity.
Qed.

(** [Read] on a connected reader with a target key and time left asks for
    the object of the first target key before anything else. *)
Lemma Read_first_request (a : AmazonS3) (w : World) k rest m e a' w' :
  session a <> None ->
  targetKeys a = k :: rest ->
  1 <= MaxBatchCount (conf a) ->
  0 < Now aws (tick w) + timeout a - Now aws (S (tick w)) ->
  Read lib aws a w = Returns (m, e, a', w') ->
  exists evs, trace w' = trace w ++ download_request a k :: evs.
Proof.
  intros Hs Htk Hmax Htime H.
  unfold Read, read, readFromMgr, read_with in H. unfold download_request.
  destruct (session a); [|congruence]. rewrite Htk in H. cbn [List.length Nat.eqb] in H.
  destruct (readMethod a).
  - eapply readFromMgr_loop_first_request in H; eauto. cbn. lia.
  - eapply read_loop_first_request in H; eauto. cbn. lia.
Qed.

End Requests.

(** C2. [Acknowledge(err)] with a non-nil [err], in any state: no request is
    issued (the world is untouched), the read keys are put, in their order, in
    front of the target keys, the read keys become empty, and nil is
    returned.  On a reachable, connected reader the next [Read], given time,
    returns and starts by asking for the object of the first key that had been
    read. *)
Theorem Acknowledge_error_requeues_read_keys :
  forall (err : error) (a : AmazonS3) (w : World),
    exists a',
      Acknowledge (Some err) a w = Returns (None, a', w) /\
      targetKeys a' = readKeys a ++ targetKeys a /\
      readKeys a' = [] /\
      same_clients a a' /\
      a' = set_readKeys [] (set_targetKeys (readKeys a ++ targetKeys a) a) /\
      (forall lib aws w1 k ks,
          reachable lib a ->
          session a <> None ->
          readKeys a = k :: ks ->
          0 < Now aws (tick w1) + timeout a - Now aws (S (tick w1)) ->
          exists m e a'' w2 evs,
            Read lib aws a' w1 = Returns (m, e, a'', w2) /\
            trace w2 = trace w1 ++ download_request a k :: evs).
Proof.
  intros err a w. eexists. split; [reflexivity|]. repeat split.
  intros lib aws w1 k ks Hreach Hs Hrk Htime.
  set (a' := set_readKeys [] (set_targetKeys (readKeys a ++ targetKeys a) a)).
  assert (HI' : Inv a').
  { eapply (Acknowledge_Inv (Some err) a w); [exact (reachable_Inv lib a Hreach)|reflexivity]. }
  destruct (Read_returns lib aws a' w1 HI') as [[[[m e] a''] w2] Hr].
  exists m, e, a'', w2.
  destruct (Read_first_request lib aws a' w1 k (ks ++ targetKeys a) m e a'' w2) as [evs Hevs];
    try assumption.
  - subst a'. cbn. rewrite Hrk. reflexivity.
  - exact (inv_batch HI').
  - exists evs. split; [exact Hr|exact Hevs].
Qed.

(** The theorem on the queue-driven example after its first [Read]: refused,
    the keys ["k1"] and ["k2"] are target keys again, and the next [Read]
    starts with ["k1"]. *)
Lemma Acknowledge_error_requeues_read_keys_witness :
  exists a',
    Acknowledge (Some ErrTimeout) (snd (fst example_queue_read)) (snd example_queue_read) =
      Returns (None, a', snd example_queue_read) /\
    map s3Key (targetKeys a') = ["k1"; "k2"] /\
    readKeys a' = [] /\
    exists m e a'' w2 evs,
      Read example_lib example_queue_aws a' (snd example_queue_read) =
        Returns (m, e, a'', w2) /\
      trace w2 = trace (snd example_queue_read) ++ EvDownload "b" "k1" :: evs.
Proof.
  destruct (Acknowledge_error_requeues_read_keys ErrTimeout (snd (fst example_queue_read))
              (snd example_queue_read)) as [a' (Hack & Htk & Hrk & _ & _ & Hnext)].
  exists a'. split; [exact Hack|]. split; [rewrite Htk; reflexivity|]. split; [exact Hrk|].
  refine (Hnext example_lib example_queue_aws (snd example_queue_read)
            (mkObjKey "k1" "" 1 None)
            [mkObjKey "k2" "" 1 (Some (mkEntry (Some "id-1") (Some "receipt-1")))]
            reachable_example_queue_read _ eq_refl _).
  - vm_compute. discriminate.
  - vm_compute. reflexivity.
Defined.

(** * Further properties of the reader *)

(** ** [Connect] *)

(** X1. The first successful [Connect] of a reader without an SQS URL asks for
    a session and lists the bucket once, with the prefix when there is one.
    Every key listed becomes a target key, behind those already there and in
    the order of the listing, with [retries] attempts, no bucket of its own and
    no SQS handle.  The session and the two S3 clients are set, the queue
    client is not touched. *)
Theorem Connect_lists_bucket :
  forall (aws : Aws) (a : AmazonS3) (w : World) (sess : Session) (pages : list (list string)),
    session a = None ->
    SQSURL (conf a) = "" ->
    GetSession aws (tick w) = inr sess ->
    ListObjectsPages aws (S (tick w)) (Bucket (conf a)) (list_prefix (conf a)) = (pages, None) ->
    exists a' w',
      Connect aws a w = Returns (None, a', w') /\
      targetKeys a' = targetKeys a ++ listed_keys (conf a) pages /\
      readKeys a' = readKeys a /\
      session a' = Some sess /\
      s3 a' = Some (s3_New sess) /\
      downloader a' = Some (NewDownloader sess) /\
      sqs a' = sqs a /\
      conf a' = conf a /\
      trace w' = trace w ++
                 [EvGetSession; EvListObjectsPages (Bucket (conf a)) (list_prefix (conf a))].
Proof.
  intros aws a w sess pages Hs Hurl Hget Hlist.
  unfold Connect. rewrite Hs, Hget, Hurl. cbn [len_str String.length Nat.eqb].
  cbn [emit tick]. fold (list_prefix (conf a)). rewrite Hlist.
  eexists. eexists. split; [reflexivity|]. cbn. rewrite <- app_assoc.
  repeat split.
Qed.

Lemma Connect_lists_bucket_witness :
  exists a' w',
    Connect (example_aws []) example_bucket_new example_world = Returns (None, a', w') /\
    targetKeys a' = [mkObjKey "gone" "" 1 None] /\
    session a' = Some (mkSession 0) /\
    trace w' = [EvGetSession; EvListObjectsPages "b" None].
Proof.
  destruct (Connect_lists_bucket (example_aws []) example_bucket_new example_world
              (mkSession 0) [["gone"]] eq_refl eq_refl eq_refl eq_refl)
    as [a' [w' (Hrun & Htk & _ & Hs & _ & _ & _ & _ & Htr)]].
  exists a', w'. repeat split; assumption.
Defined.

(** X2. With an SQS URL the first successful [Connect] asks for a session and
    nothing else: the bucket is not listed, the target keys stay as they are,
    and the queue client is set beside the session and the S3 clients. *)
Theorem Connect_with_queue_lists_nothing :
  forall (aws : Aws) (a : AmazonS3) (w : World) (sess : Session),
    session a = None ->
    SQSURL (conf a) <> "" ->
    GetSession aws (tick w) = inr sess ->
    exists a',
      Connect aws a w = Returns (None, a', emit EvGetSession w) /\
      targetKeys a' = targetKeys a /\
      readKeys a' = readKeys a /\
      session a' = Some sess /\
      s3 a' = Some (s3_New sess) /\
      downloader a' = Some (NewDownloader sess) /\
      sqs a' = Some (sqs_New sess) /\
      conf a' = conf a.
Proof.
  intros aws a w sess Hs Hurl Hget.
  unfold Connect. rewrite Hs, Hget.
  destruct (Nat.eqb_spec (len_str (SQSURL (conf a))) 0) as [H0|_].
  - exfalso. apply Hurl. apply len_str_zero. exact H0.
  - eexists. split; [reflexivity|]. repeat split.
Qed.

Lemma Connect_with_queue_lists_nothing_witness :
  exists a',
    Connect example_queue_aws example_queue_new example_world =
      Returns (None, a', emit EvGetSession example_world) /\
    targetKeys a' = [] /\
    sqs a' = Some (sqs_New (mkSession 0)).
Proof.
  destruct (Connect_with_queue_lists_nothing example_queue_aws example_queue_new example_world
              (mkSession 0) eq_refl ltac:(vm_compute; discriminate) eq_refl)
    as [a' (Hrun & Htk & _ & _ & _ & _ & Hq & _)].
  exists a'. repeat split; assumption.
Defined.

(** X3. A [Connect] that returns an error leaves the reader disconnected: the
    session stays nil, so that [Read] goes on returning [ErrNotConnected], and
    the read keys and the configuration are untouched.  The target keys can
    only have grown at their end. *)
Theorem Connect_failure_stays_disconnected :
  forall (lib : Lib) (aws : Aws) (a : AmazonS3) (w : World) (err : error)
         (a' : AmazonS3) (w' : World),
    session a = None ->
    Connect aws a w = Returns (Some err, a', w') ->
    session a' = None /\
    readKeys a' = readKeys a /\
    conf a' = conf a /\
    (exists new, targetKeys a' = targetKeys a ++ new) /\
    forall aws1 w1, Read lib aws1 a' w1 = Returns (None, Some ErrNotConnected, a', w1).
Proof.
  intros lib aws a w err a' w' Hs H.
  assert (Hfacts : session a' = None /\ readKeys a' = readKeys a /\ conf a' = conf a /\
                   exists new, targetKeys a' = targetKeys a ++ new).
  { unfold Connect in H. rewrite Hs in H.
    destruct (GetSession aws (tick w)) as [e|sess].
    - injection H as _ <- _. repeat split; [exact Hs|]. exists []. symmetry. apply app_nil_r.
    - destruct (Nat.eqb (len_str (SQSURL (conf a))) 0); [|discriminate H].
      destruct (ListObjectsPages aws _ _ _) as [pages [e|]]; [|discriminate H].
      injection H as _ <- _. cbn. repeat split; [exact Hs|]. eexists. reflexivity. }
  destruct Hfacts as (Hs' & Hrk & Hconf & Hnew). repeat split; try assumption.
  intros aws1 w1. unfold Read, read, readFromMgr, read_with. rewrite Hs'.
  destruct (readMethod a'); reflexivity.
Qed.

Lemma Connect_failure_stays_disconnected_witness :
  exists err a' w',
    Connect example_aws_flaky example_bucket_new example_world = Returns (Some err, a', w') /\
    session a' = None /\
    Read example_lib example_aws_flaky a' w' = Returns (None, Some ErrNotConnected, a', w').
Proof.
  eexists. eexists. eexists. split; [reflexivity|].
  match goal with
  | |- session ?a' = None /\ Read _ _ _ ?w' = _ =>
      destruct (Connect_failure_stays_disconnected example_lib example_aws_flaky
                  example_bucket_new example_world
                  (Errorf "failed to list objects: %v" [ArgErr (ErrLib "RequestError")])
                  a' w' eq_refl eq_refl) as (Hs & _ & _ & _ & Hread)
  end.
  split; [exact Hs|]. apply Hread.
Defined.

(** X4. Keys listed before a listing failed are kept: when [Connect] is
    called again and the listing goes through, the keys the broken listing
    had delivered are target keys a second time. *)
Theorem Connect_again_after_failed_listing :
  forall (aws : Aws) (a : AmazonS3) (w : World) (sess1 sess2 : Session)
         (pages1 pages2 : list (list string)) (e : error),
    session a = None ->
    SQSURL (conf a) = "" ->
    GetSession aws (tick w) = inr sess1 ->
    ListObjectsPages aws (S (tick w)) (Bucket (conf a)) (list_prefix (conf a))
      = (pages1, Some e) ->
    GetSession aws (S (S (tick w))) = inr sess2 ->
    ListObjectsPages aws (S (S (S (tick w)))) (Bucket (conf a)) (list_prefix (conf a))
      = (pages2, None) ->
    exists a1 w1 a2 w2,
      Connect aws a w =
        Returns (Some (Errorf "failed to list objects: %v" [ArgErr e]), a1, w1) /\
      Connect aws a1 w1 = Returns (None, a2, w2) /\
      targetKeys a2 =
        targetKeys a ++ listed_keys (conf a) pages1 ++ listed_keys (conf a) pages2 /\
      session a2 = Some sess2.
Proof.
  intros aws a w sess1 sess2 pages1 pages2 e Hs Hurl Hget1 Hlist1 Hget2 Hlist2.
  eexists. eexists.
  assert (H1 : Connect aws a w =
               Returns (Some (Errorf "failed to list objects: %v" [ArgErr e]),
                        set_targetKeys (targetKeys a ++ listed_keys (conf a) pages1) a,
                        emit (EvListObjectsPages (Bucket (conf a)) (list_prefix (conf a)))
                          (emit EvGetSession w))).
  { unfold Connect. rewrite Hs, Hget1, Hurl. cbn [len_str String.length Nat.eqb].
    cbn [emit tick]. fold (list_prefix (conf a)). rewrite Hlist1. reflexivity. }
  eexists. eexists. split; [exact H1|].
  unfold Connect. cbn [session set_targetKeys conf targetKeys].
  rewrite Hs. cbn [emit tick]. rewrite Hget2, Hurl. cbn [len_str String.length Nat.eqb].
  fold (list_prefix (conf a)). rewrite Hlist2.
  split; [reflexivity|]. cbn. rewrite <- app_assoc. split; reflexivity.
Qed.

Lemma Connect_again_after_failed_listing_witness :
  exists a1 w1 a2 w2,
    Connect example_aws_flaky example_bucket_new example_world =
      Returns (Some (Errorf "failed to list objects: %v" [ArgErr (ErrLib "RequestError")]),
               a1, w1) /\
    Connect example_aws_flaky a1 w1 = Returns (None, a2, w2) /\
    map s3Key (targetKeys a2) = ["gone"; "gone"; "more"].
Proof.
  destruct (Connect_again_after_failed_listing example_aws_flaky example_bucket_new
              example_world (mkSession 0) (mkSession 0) [["gone"]] [["gone"; "more"]]
              (ErrLib "RequestError") eq_refl eq_refl eq_refl eq_refl eq_refl eq_refl)
    as [a1 [w1 [a2 [w2 (H1 & H2 & Htk & _)]]]].
  exists a1, w1, a2, w2. split; [exact H1|]. split; [exact H2|].
  rewrite Htk. reflexivity.
Defined.

(** ** [NewAmazonS3] *)

(** X5. [NewAmazonS3] builds a reader exactly when [max_batch_count] is at
    least one and the timeout is empty or parses as a duration.  The reader it
    builds is disconnected and holds no key; it reads through the download
    manager exactly when that is enabled, and with an empty timeout string its
    timeout is zero. *)
Theorem NewAmazonS3_succeeds_iff :
  forall (lib : Lib) (c : AmazonS3Config),
    ((exists a, NewAmazonS3 lib c = inr a) <->
     1 <= MaxBatchCount c /\
     (Timeout c = "" \/ exists d, ParseDuration lib (Timeout c) = inr d)) /\
    (forall a, NewAmazonS3 lib c = inr a ->
               conf a = c /\ readKeys a = [] /\ targetKeys a = [] /\
               session a = None /\ s3 a = None /\ downloader a = None /\ sqs a = None /\
               readMethod a = (if DownloadManager_Enabled c
                               then method_readFromMgr else method_read) /\
               (Timeout c = "" -> timeout a = 0) /\
               (forall d, ParseDuration lib (Timeout c) = inr d -> Timeout c <> "" ->
                          timeout a = d)).
Proof.
  intros lib c. unfold NewAmazonS3.
  assert (Hlen : Nat.ltb 0 (len_str (Timeout c)) = false <-> Timeout c = "").
  { rewrite <- len_str_zero. destruct (len_str (Timeout c)); cbn; split; intro H;
      try reflexivity; discriminate H. }
  split.
  - split.
    + intros [a H].
      destruct (Nat.ltb 0 (len_str (Timeout c))) eqn:Ht.
      * destruct (ParseDuration lib (Timeout c)) as [e|d] eqn:Hp; [discriminate H|].
        destruct (Z.ltb_spec (MaxBatchCount c) 1); [discriminate H|]. split; [lia|].
        right. exists d. reflexivity.
      * destruct (Z.ltb_spec (MaxBatchCount c) 1); [discriminate H|]. split; [lia|].
        left. apply Hlen. reflexivity.
    + intros [Hmax Ht].
      assert (Hm : (MaxBatchCount c <? 1) = false) by (apply Z.ltb_ge; lia).
      destruct (Nat.ltb 0 (len_str (Timeout c))) eqn:Hl.
      * destruct Ht as [Ht|[d Hd]].
        -- apply Hlen in Ht. congruence.
        -- rewrite Hd, Hm. eexists; reflexivity.
      * rewrite Hm. eexists; reflexivity.
  - intros a H.
    destruct (Nat.ltb 0 (len_str (Timeout c))) eqn:Hl.
    + destruct (ParseDuration lib (Timeout c)) as [e|d] eqn:Hp; [discriminate H|].
      destruct (MaxBatchCount c <? 1); [discriminate H|]. injection H as <-. cbn.
      repeat split.
      * intro Ht. apply Hlen in Ht. congruence.
      * intros d' Hd' _. congruence.
    + destruct (MaxBatchCount c <? 1); [discriminate H|]. injection H as <-. cbn.
      repeat split. intros d _ Hne. exfalso. apply Hne. apply Hlen. reflexivity.
Qed.

Lemma NewAmazonS3_succeeds_iff_witness :
  (exists a, NewAmazonS3 example_lib example_conf_queue = inr a) /\
  conf example_queue_new = example_conf_queue /\
  session example_queue_new = None /\
  readMethod example_queue_new = method_readFromMgr /\
  timeout example_queue_new = 5000000000.
Proof.
  pose proof (NewAmazonS3_succeeds_iff example_lib example_conf_queue) as [Hiff Hfields].
  assert (Hok : exists a, NewAmazonS3 example_lib example_conf_queue = inr a).
  { apply Hiff. split; [vm_compute; discriminate|]. right. eexists. reflexivity. }
  split; [exact Hok|].
  destruct (Hfields example_queue_new eq_refl) as (Hc & _ & _ & Hs & _ & _ & _ & Hm & _ & Ht).
  split; [exact Hc|]. split; [exact Hs|]. split; [exact Hm|].
  apply Ht; [reflexivity|vm_compute; discriminate].
Defined.

(** ** What holds of every reachable reader *)

Lemma Read_same_clients (lib : Lib) (aws : Aws) (a : AmazonS3) (w : World) m e a' w' :
  Read lib aws a w = Returns (m, e, a', w') -> same_clients a a'.
Proof.
  assert (Hgen : forall loop,
             (forall fuel timeoutAt msg a0 w0 m0 e0 a1 w1,
                 loop fuel timeoutAt msg a0 w0 = Returns (m0, e0, a1, w1) -> loop_keeps a0 a1) ->
             read_with lib aws loop a w = Returns (m, e, a', w') -> same_clients a a').
  { intros loop Hloop H. unfold read_with in H.
    destruct (session a); [|injection H as _ _ <- _; apply same_clients_refl].
    assert (Hbatch : forall a1 w1, same_clients a a1 ->
               (if Nat.eqb (List.length (targetKeys a1)) 0
                then Returns (None, Some ErrTimeout, a1, w1)
                else loop (S (List.length (targetKeys a1))) (Now aws (tick w) + timeout a)
                       Message_New a1 w1) = Returns (m, e, a', w') -> same_clients a a').
    { intros a1 w1 Hsame Hb. destruct (Nat.eqb (List.length (targetKeys a1)) 0).
      - injection Hb as _ _ <- _. exact Hsame.
      - apply Hloop in Hb. destruct Hb as [Hb _].
        exact (same_clients_trans _ _ _ Hsame Hb). }
    destruct (Nat.eqb (List.length (targetKeys a)) 0) eqn:Hn.
    - destruct (sqs a); [|injection H as _ _ <- _; apply same_clients_refl].
      destruct (readSQSEvents lib aws a (clock_read w)) as [[[e1 a1] w1]| |] eqn:Hr;
        try discriminate H.
      apply readSQSEvents_same in Hr. destruct Hr as [Hsame _].
      destruct e1; [injection H as _ _ <- _; exact Hsame|].
      exact (Hbatch a1 w1 Hsame H).
    - apply (Hbatch a (clock_read w) (same_clients_refl a)). rewrite Hn. exact H. }
  intro H. unfold Read, read, readFromMgr in H. destruct (readMethod a).
  - exact (Hgen _ (readFromMgr_loop_keeps aws) H).
  - exact (Hgen _ (read_loop_keeps lib aws) H).
Qed.

Lemma reachable_readMethod (lib : Lib) (a : AmazonS3) :
  reachable lib a ->
  readMethod a = if DownloadManager_Enabled (conf a) then method_readFromMgr else method_read.
Proof.
  induction 1 as [c a H|aws a w res a' w' _ IH H|aws a w m e a' w' _ IH H
                 |a w err res a' w' _ IH H].
  - unfold NewAmazonS3 in H.
    destruct (if Nat.ltb 0 (len_str (Timeout c)) then _ else _); [discriminate H|].
    destruct (MaxBatchCount c <? 1); [discriminate H|]. injection H as <-. reflexivity.
  - unfold Connect in H. destruct (session a).
    + injection H as _ <- _. exact IH.
    + destruct (GetSession aws (tick w)); [injection H as _ <- _; exact IH|].
      destruct (Nat.eqb (len_str (SQSURL (conf a))) 0).
      * destruct (ListObjectsPages aws _ _ _) as [pages [e|]];
          injection H as _ <- _; exact IH.
      * injection H as _ <- _. exact IH.
  - apply Read_same_clients in H. destruct H as (Hc & _ & _ & _ & _ & Hm).
    rewrite Hm, Hc. exact IH.
  - unfold Acknowledge in H. destruct err.
    + injection H as _ <- _. exact IH.
    + destruct (ack_readKeys _ _ _ _) as [[hs w1]| |]; try discriminate H.
      destruct (deleteMessageBatches _ _ _ _ _); try discriminate H.
      injection H as _ <- _. exact IH.
Qed.

(** X6. On every reader reached from [NewAmazonS3] by calls of [Connect],
    [Read] and [Acknowledge]: while the session is nil there is no queue client
    and no read key; once it is set, both S3 clients are set, and the queue
    client is set exactly when an SQS URL is configured; without a queue client
    no key carries an SQS handle; [max_batch_count] is at least one; and the
    read method is the one the download manager setting selects. *)
Theorem reachable_reader_invariant :
  forall (lib : Lib) (a : AmazonS3),
    reachable lib a ->
    (session a = None -> sqs a = None /\ readKeys a = []) /\
    (session a <> None ->
     s3 a <> None /\ downloader a <> None /\ (sqs a <> None <-> SQSURL (conf a) <> "")) /\
    (sqs a = None -> handles_of (readKeys a ++ targetKeys a) = []) /\
    1 <= MaxBatchCount (conf a) /\
    readMethod a = (if DownloadManager_Enabled (conf a)
                    then method_readFromMgr else method_read).
Proof.
  intros lib a Hreach. destruct (reachable_Inv lib a Hreach) as [Hd Hc Hh Hb].
  split; [exact Hd|]. split; [exact Hc|]. split; [|split; [exact Hb|]].
  - intro Hq. apply handles_of_none. exact (Hh Hq).
  - exact (reachable_readMethod lib a Hreach).
Qed.

Lemma reachable_reader_invariant_witness :
  s3 (snd (fst example_queue_read)) <> None /\
  (sqs (snd (fst example_queue_read)) <> None <->
   SQSURL (conf (snd (fst example_queue_read))) <> "") /\
  readMethod (snd (fst example_queue_read)) = method_readFromMgr.
Proof.
  destruct (reachable_reader_invariant example_lib (snd (fst example_queue_read))
              reachable_example_queue_read) as (_ & Hc & _ & _ & Hm).
  destruct (Hc ltac:(vm_compute; discriminate)) as (Hs3 & _ & Hq).
  split; [exact Hs3|]. split; [exact Hq|exact Hm].
Defined.

(** X7. On a reachable reader no method panics on a nil client and every loop
    ends: [Connect], [Read] and [Acknowledge] return, whatever the outside
    world answers. *)
Theorem reachable_reader_returns :
  forall (lib : Lib) (aws : Aws) (a : AmazonS3) (w : World),
    reachable lib a ->
    (exists r, Connect aws a w = Returns r) /\
    (exists r, Read lib aws a w = Returns r) /\
    (forall err, exists r, Acknowledge err a w = Returns r).
Proof.
  intros lib aws a w Hreach. pose proof (reachable_Inv lib a Hreach) as HI.
  split; [|split].
  - unfold Connect. destruct (session a); [eexists; reflexivity|].
    destruct (GetSession aws (tick w)); [eexists; reflexivity|].
    destruct (Nat.eqb (len_str (SQSURL (conf a))) 0); [|eexists; reflexivity].
    destruct (ListObjectsPages aws _ _ _) as [pages [e|]]; eexists; reflexivity.
  - exact (Read_returns lib aws a w HI).
  - intros [e|]; [eexists; reflexivity|].
    destruct (Acknowledge_nil_spec a w HI) as [batches [w' [Hrun _]]]. eauto.
Qed.

Lemma reachable_reader_returns_witness :
  (exists r, Connect example_queue_aws (snd (fst example_queue_read))
               (snd example_queue_read) = Returns r) /\
  (exists r, Read example_lib example_queue_aws (snd (fst example_queue_read))
               (snd example_queue_read) = Returns r) /\
  (forall err, exists r, Acknowledge err (snd (fst example_queue_read))
                           (snd example_queue_read) = Returns r).
Proof.
  exact (reachable_reader_returns example_lib example_queue_aws
           (snd (fst example_queue_read)) (snd example_queue_read)
           reachable_example_queue_read).
Defined.

(** ** [Acknowledge] *)

Lemma Acknowledge_nothing_read (err : option error) (a : AmazonS3) (w : World) :
  readKeys a = [] -> Acknowledge err a w = Returns (None, a, w).
Proof.
  intro H. destruct a as [c bp ep kp rk tk rm se s dl q t]. cbn in H. subst rk.
  destruct err; reflexivity.
Qed.

(** X8. Acknowledging twice is acknowledging once: after an [Acknowledge]
    that returned, of either kind, a further [Acknowledge], of either kind,
    issues no request and leaves the reader as it is. *)
Theorem Acknowledge_twice :
  forall (err1 err2 : option error) (a : AmazonS3) (w : World) (res : option error)
         (a1 : AmazonS3) (w1 : World),
    Acknowledge err1 a w = Returns (res, a1, w1) ->
    Acknowledge err2 a1 w1 = Returns (None, a1, w1).
Proof.
  intros err1 err2 a w res a1 w1 H. apply Acknowledge_nothing_read.
  unfold Acknowledge in H. destruct err1.
  - injection H as _ <- _. reflexivity.
  - destruct (ack_readKeys _ _ _ _) as [[hs w0]| |]; try discriminate H.
    destruct (deleteMessageBatches _ _ _ _ _); try discriminate H.
    injection H as _ <- _. reflexivity.
Qed.

Lemma Acknowledge_twice_witness :
  exists a1 w1,
    Acknowledge None (snd (fst example_queue_read)) (snd example_queue_read) =
      Returns (None, a1, w1) /\
    Acknowledge None a1 w1 = Returns (None, a1, w1) /\
    Acknowledge (Some ErrTimeout) a1 w1 = Returns (None, a1, w1).
Proof.
  eexists. eexists. split; [reflexivity|].
  match goal with
  | |- Acknowledge None ?a1 ?w1 = _ /\ _ =>
      split;
      [ exact (Acknowledge_twice None None (snd (fst example_queue_read))
                 (snd example_queue_read) None a1 w1 eq_refl)
      | exact (Acknowledge_twice None (Some ErrTimeout) (snd (fst example_queue_read))
                 (snd example_queue_read) None a1 w1 eq_refl) ]
  end.
Defined.

(** ** [readSQSEvents] *)

Lemma update_last_app (A : Type) (f : A -> A) (l1 l2 : list A) :
  l2 <> [] -> update_last f (l1 ++ l2) = l1 ++ update_last f l2.
Proof.
  intro Hne. induction l1 as [|x l1 IH]; [reflexivity|].
  cbn [app update_last]. rewrite IH.
  destruct (l1 ++ l2) eqn:E; [|reflexivity].
  apply app_eq_nil in E. destruct E as [_ E]. contradiction.
Qed.

Lemma update_last_handles (h : Entry) (keys : list objKey) :
  keys <> [] ->
  Forall (fun k => sqsHandle k = None) keys ->
  handles_of (update_last (set_sqsHandle (Some h)) keys) = [h].
Proof.
  intros Hne Hnone.
  rewrite (app_removelast_last (mkObjKey "" "" 0 None) Hne) in Hnone |- *.
  rewrite update_last_snoc, handles_of_app.
  apply Forall_app in Hnone. destruct Hnone as [Hfront _].
  rewrite (handles_of_none _ Hfront). reflexivity.
Qed.

Lemma update_last_Forall (A : Type) (P : A -> Prop) (f : A -> A) (l : list A) :
  (forall x, P x -> P (f x)) -> Forall P l -> Forall P (update_last f l).
Proof.
  intros Hf. induction 1 as [|x l Hx Hl IH]; [constructor|].
  cbn [update_last]. destruct l as [|y l]; constructor; auto.
Qed.

Lemma newTargetKeys_fresh (c : AmazonS3Config) (buckets newTargets : list string) :
  Forall (fun p => HasPrefix p (Prefix c) = true) newTargets ->
  forall i, Forall (key_fresh c) (newTargetKeys (Retries c) buckets i newTargets).
Proof.
  induction 1 as [|t ts Ht _ IH]; intro i; cbn; constructor; auto. split; [exact Ht|reflexivity].
Qed.

(** What one round of the message loop does to the reader and the duds. *)
Lemma messageLoop_appends (lib : Lib) (sqsMsg : SQSMessage) (a : AmazonS3) (duds : list Entry) :
  exists new newDuds,
    messageLoop lib sqsMsg (a, duds) = (set_targetKeys (targetKeys a ++ new) a, duds ++ newDuds) /\
    Forall (key_fresh (conf a)) new /\
    (List.length (handles_of new) + List.length newDuds <= 1)%nat /\
    Forall (fun h => h = handle_of sqsMsg) (handles_of new ++ newDuds).
Proof.
  assert (Hsame : forall d : list Entry, (a, d) = (set_targetKeys (targetKeys a ++ []) a, d)).
  { intro d. rewrite app_nil_r. destruct a; reflexivity. }
  assert (Hdud : exists new newDuds,
             (a, duds ++ [handle_of sqsMsg]) =
               (set_targetKeys (targetKeys a ++ new) a, duds ++ newDuds) /\
             Forall (key_fresh (conf a)) new /\
             (List.length (handles_of new) + List.length newDuds <= 1)%nat /\
             Forall (fun h => h = handle_of sqsMsg) (handles_of new ++ newDuds)).
  { exists [], [handle_of sqsMsg]. split; [apply Hsame|]. repeat constructor. }
  assert (Hskip : exists new newDuds,
             (a, duds) = (set_targetKeys (targetKeys a ++ new) a, duds ++ newDuds) /\
             Forall (key_fresh (conf a)) new /\
             (List.length (handles_of new) + List.length newDuds <= 1)%nat /\
             Forall (fun h => h = handle_of sqsMsg) (handles_of new ++ newDuds)).
  { exists [], []. rewrite (app_nil_r duds). split; [apply Hsame|]. repeat constructor. }
  unfold messageLoop. fold (handle_of sqsMsg).
  destruct (Body sqsMsg) as [body|]; [|exact Hdud].
  destruct (ParseJSON lib body) as [e|gObj0]; [exact Hdud|].
  destruct (openEnvelope lib a gObj0) as [gObj|]; [|exact Hdud].
  destruct (Search lib gObj (sqsBodyPath a)) as [| | |t|t|]; try exact Hskip.
  - destruct (HasPrefix t (Prefix (conf a))) eqn:Hp; [|exact Hskip].
    exists [mkObjKey t (match extractBuckets lib a gObj with b :: _ => b | [] => "" end)
              (Retries (conf a)) (Some (handle_of sqsMsg))], [].
    rewrite (app_nil_r duds). split; [reflexivity|].
    split; [|split].
    + constructor; [|constructor]. split; [exact Hp|reflexivity].
    + cbn. lia.
    + cbn. constructor; [reflexivity|constructor].
  - set (newTargets := filter (fun p => HasPrefix p (Prefix (conf a))) (digStrsFromSlices t)).
    assert (Hall : Forall (fun p => HasPrefix p (Prefix (conf a)) = true) newTargets).
    { apply Forall_forall. intros p Hp. apply filter_In in Hp. tauto. }
    destruct newTargets as [|t1 ts] eqn:Hnt; [exact Hdud|].
    set (keys := newTargetKeys (Retries (conf a)) (extractBuckets lib a gObj) 0 (t1 :: ts)).
    assert (Hne : keys <> []) by discriminate.
    exists (update_last (set_sqsHandle (Some (handle_of sqsMsg))) keys), [].
    rewrite (app_nil_r duds), update_last_app by exact Hne. split; [reflexivity|].
    rewrite app_nil_r, (update_last_handles _ keys Hne (newTargetKeys_no_handle _ _ _ _)).
    split; [|split].
    + apply update_last_Forall; [|apply newTargetKeys_fresh; exact Hall].
      intros k Hk. exact Hk.
    + cbn. lia.
    + constructor; [reflexivity|constructor].
Qed.

Lemma after_messages_appends (lib : Lib) (messages : list SQSMessage) :
  forall (a : AmazonS3) (duds : list Entry),
    exists new newDuds,
      fold_left (fun st sqsMsg => messageLoop lib sqsMsg st) messages (a, duds) =
        (set_targetKeys (targetKeys a ++ new) a, duds ++ newDuds) /\
      Forall (key_fresh (conf a)) new /\
      (List.length (handles_of new) + List.length newDuds <= List.length messages)%nat /\
      Forall (fun h => exists sqsMsg, In sqsMsg messages /\ h = handle_of sqsMsg)
        (handles_of new ++ newDuds).
Proof.
  induction messages as [|m ms IH]; intros a duds.
  - exists [], []. cbn. rewrite !app_nil_r. split; [destruct a; reflexivity|].
    repeat constructor.
  - cbn [fold_left].
    destruct (messageLoop_appends lib m a duds) as [new1 [d1 (H1 & Hf1 & Hl1 & Hh1)]].
    rewrite H1.
    destruct (IH (set_targetKeys (targetKeys a ++ new1) a) (duds ++ d1))
      as [new2 [d2 (H2 & Hf2 & Hl2 & Hh2)]].
    exists (new1 ++ new2), (d1 ++ d2). rewrite H2. cbn. rewrite <- !app_assoc.
    split; [reflexivity|]. split; [|split].
    + apply Forall_app. split; [exact Hf1|exact Hf2].
    + rewrite handles_of_app, !length_app. cbn [List.length] in *. lia.
    + rewrite handles_of_app.
      apply Forall_app in Hh1, Hh2. destruct Hh1 as [Hk1 Hd1], Hh2 as [Hk2 Hd2].
      assert (Hfirst : forall l, Forall (fun h => h = handle_of m) l ->
                Forall (fun h => exists sqsMsg, In sqsMsg (m :: ms) /\ h = handle_of sqsMsg) l).
      { intros l Hl. eapply Forall_impl; [|exact Hl]. intros h ->. exists m. split; [left|]; reflexivity. }
      assert (Hrest : forall l,
                Forall (fun h => exists sqsMsg, In sqsMsg ms /\ h = handle_of sqsMsg) l ->
                Forall (fun h => exists sqsMsg, In sqsMsg (m :: ms) /\ h = handle_of sqsMsg) l).
      { intros l Hl. eapply Forall_impl; [|exact Hl]. intros h [x [Hx ->]]. exists x.
        split; [right; exact Hx|reflexivity]. }
      repeat (apply Forall_app; split); auto.
Qed.

(** X9. What a round of [readSQSEvents] leaves behind.  The read keys are
    untouched and the target keys only grow at their end.  Every key added is
    under the configured prefix and has [retries] attempts.  Every handle put
    on a key or among the duds is the handle of a message received, and there
    are no more of them than messages: no message is scheduled for deletion
    twice. *)
Theorem readSQSEvents_appends_fresh_keys :
  forall (lib : Lib) (a : AmazonS3) (messages : list SQSMessage),
    exists new,
      targetKeys (fst (after_messages lib a messages)) = targetKeys a ++ new /\
      readKeys (fst (after_messages lib a messages)) = readKeys a /\
      Forall (key_fresh (conf a)) new /\
      (List.length (handles_of new) + List.length (snd (after_messages lib a messages))
       <= List.length messages)%nat /\
      Forall (fun h => exists sqsMsg, In sqsMsg messages /\ h = handle_of sqsMsg)
        (handles_of new ++ snd (after_messages lib a messages)).
Proof.
  intros lib a messages. unfold after_messages.
  destruct (after_messages_appends lib messages a []) as [new [d (H & Hf & Hl & Hh)]].
  rewrite H. cbn. exists new. repeat split; assumption.
Qed.



(** X11. A message is a dud, to be deleted from the queue, and the reader is
    left as it is, when it has no body, when its body is not JSON, when its
    envelope cannot be opened, or when its body path resolves to a list with
    no key under the prefix. *)
Theorem messageLoop_duds :
  forall (lib : Lib) (a : AmazonS3) (dudMessageHandles : list Entry) (sqsMsg : SQSMessage),
    (Body sqsMsg = None \/
     (exists body e, Body sqsMsg = Some body /\ ParseJSON lib body = inl e) \/
     (exists body gObj0,
         Body sqsMsg = Some body /\ ParseJSON lib body = inr gObj0 /\
         openEnvelope lib a gObj0 = None) \/
     (exists body gObj0 gObj t,
         Body sqsMsg = Some body /\ ParseJSON lib body = inr gObj0 /\
         openEnvelope lib a gObj0 = Some gObj /\
         Search lib gObj (sqsBodyPath a) = VArr t /\
         filter (fun p => HasPrefix p (Prefix (conf a))) (digStrsFromSlices t) = [])) ->
    messageLoop lib sqsMsg (a, dudMessageHandles) =
      (a, dudMessageHandles ++ [handle_of sqsMsg]).
Proof.
  intros lib a duds sqsMsg H. unfold messageLoop.
  destruct H as [H|[(body & e & Hb & Hp)|[(body & g0 & Hb & Hp & He)
                |(body & g0 & g & t & Hb & Hp & He & Hs & Hf)]]].
  - rewrite H. reflexivity.
  - rewrite Hb, Hp. reflexivity.
  - rewrite Hb, Hp, He. reflexivity.
  - rewrite Hb, Hp, He, Hs, Hf. reflexivity.
Qed.

(** The two messages of [example_duds], and the event naming ["k1"] and
    ["k2"] for the reader that wants the prefix ["z"]. *)
Lemma messageLoop_duds_witness :
  after_messages example_lib example_queue_new example_duds =
    (example_queue_new, [mkEntry (Some "id-2") (Some "receipt-2");
                         mkEntry (Some "id-3") (Some "receipt-3")]) /\
  messageLoop example_lib (example_message "two-keys") (example_z_new, []) =
    (example_z_new, [mkEntry (Some "id-1") (Some "receipt-1")]).
Proof.
  split.
  - unfold after_messages, example_duds. cbn [fold_left].
    rewrite (messageLoop_duds example_lib example_queue_new []
               (mkSQSMessage (Some "id-2") (Some "receipt-2") (Some "garbage"))).
    + rewrite (messageLoop_duds example_lib example_queue_new _
                 (mkSQSMessage (Some "id-3") (Some "receipt-3") None));
        [reflexivity|left; reflexivity].
    + right. left. exists "garbage", (ErrLib "invalid character"). split; reflexivity.
  - apply (messageLoop_duds example_lib example_z_new [] (example_message "two-keys")).
    right. right. right.
    exists "two-keys", (example_event ["k1"; "k2"]), (example_event ["k1"; "k2"]),
      [VStr "k1"; VStr "k2"].
    repeat split.
Defined.



Lemma update_last_map (A B : Type) (g : A -> B) (f : A -> A) (l : list A) :
  (forall x, g (f x) = g x) -> map g (update_last f l) = map g l.
Proof.
  intro Hg. induction l as [|x l IH]; [reflexivity|].
  cbn [update_last]. destruct l as [|y l].
  - cbn. rewrite Hg. reflexivity.
  - cbn [map] in *. rewrite IH. reflexivity.
Qed.

Lemma newTargetKeys_s3Bucket (retries : Z) (buckets newTargets : list string) :
  forall i,
    map s3Bucket (newTargetKeys retries buckets i newTargets) =
    map (fun j => nth j buckets "") (seq i (List.length newTargets)).
Proof.
  induction newTargets as [|t ts IH]; intro i; [reflexivity|].
  cbn [newTargetKeys map seq List.length s3Bucket]. rewrite IH. f_equal.
  destruct (Nat.ltb_spec i (List.length buckets)) as [Hlt|Hge]; [reflexivity|].
  symmetry. apply nth_overflow. exact Hge.
Qed.

(** X13. When the body path of a message resolves to a list, the keys under
    the prefix become target keys in their order, and the key at position [i]
    gets the bucket at position [i] of the buckets found in the message; a key
    beyond the last bucket gets none, and will be read from the configured
    bucket. *)
Theorem messageLoop_buckets_by_position :
  forall (lib : Lib) (a : AmazonS3) (dudMessageHandles : list Entry) (sqsMsg : SQSMessage)
         (body : string) (gObj0 gObj : Value) (t : list Value),
    Body sqsMsg = Some body ->
    ParseJSON lib body = inr gObj0 ->
    openEnvelope lib a gObj0 = Some gObj ->
    Search lib gObj (sqsBodyPath a) = VArr t ->
    let newTargets := filter (fun p => HasPrefix p (Prefix (conf a))) (digStrsFromSlices t) in
    let buckets := extractBuckets lib a gObj in
    newTargets <> [] ->
    exists new,
      messageLoop lib sqsMsg (a, dudMessageHandles) =
        (set_targetKeys (targetKeys a ++ new) a, dudMessageHandles) /\
      map s3Key new = newTargets /\
      map s3Bucket new = map (fun i => nth i buckets "") (seq 0 (List.length newTargets)) /\
      forall k, In k new -> s3Bucket k = "" -> bucket_of (conf a) k = Bucket (conf a).
Proof.
  intros lib a duds sqsMsg body gObj0 gObj t Hb Hp He Hs newTargets buckets Hne.
  set (keys := newTargetKeys (Retries (conf a)) buckets 0 newTargets).
  assert (Hk : keys <> []).
  { subst keys. destruct newTargets; [contradiction|discriminate]. }
  exists (update_last (set_sqsHandle (Some (handle_of sqsMsg))) keys).
  split; [|split; [|split]].
  - unfold messageLoop. rewrite Hb, Hp, He, Hs. fold newTargets. fold buckets. fold keys.
    fold (handle_of sqsMsg).
    destruct newTargets as [|t1 ts] eqn:Hnt; [contradiction|].
    rewrite update_last_app by exact Hk. reflexivity.
  - rewrite update_last_map by reflexivity. apply newTargetKeys_s3Key.
  - rewrite update_last_map by reflexivity. apply newTargetKeys_s3Bucket.
  - intros k _ Hempty. unfold bucket_of. rewrite Hempty. reflexivity.
Qed.

Lemma messageLoop_buckets_by_position_witness :
  exists new,
    messageLoop example_lib (example_message "three-keys") (example_buckets_new, []) =
      (set_targetKeys new example_buckets_new, []) /\
    map s3Key new = ["k1"; "k2"; "k3"] /\
    map s3Bucket new = [""; ""; ""].
Proof.
  destruct (messageLoop_buckets_by_position example_lib example_buckets_new []
              (example_message "three-keys") "three-keys"
              (example_event ["k1"; "k2"; "k3"]) (example_event ["k1"; "k2"; "k3"])
              [VStr "k1"; VStr "k2"; VStr "k3"] eq_refl eq_refl eq_refl eq_refl
              ltac:(vm_compute; discriminate)) as [new (Hrun & Hkeys & Hbuckets & _)].
  exists new. split; [exact Hrun|]. split; [exact Hkeys|exact Hbuckets].
Defined.



(** ** [Read]: the keys *)

Lemma set_targetKeys_eta (a : AmazonS3) : set_targetKeys (targetKeys a) a = a.
Proof. destruct a; reflexivity. Qed.

(** What [readSQSEvents] can have done to the reader when it returns. *)
Lemma readSQSEvents_result (lib : Lib) (aws : Aws) (a : AmazonS3) (w : World) e a1 w1 :
  readSQSEvents lib aws a w = Returns (e, a1, w1) ->
  exists new, a1 = set_targetKeys (targetKeys a ++ new) a /\ Forall (key_fresh (conf a)) new.
Proof.
  intro H. unfold readSQSEvents in H.
  destruct (sqs a); [|discriminate H].
  destruct (ReceiveMessage aws _ _ _ _) as [err|messages].
  - injection H as _ <- _. exists []. rewrite app_nil_r, set_targetKeys_eta.
    split; [reflexivity|constructor].
  - destruct (after_messages_appends lib messages a []) as [new [d (Hf & Hfresh & _)]].
    rewrite Hf in H.
    destruct (deleteMessageBatches _ _ _ _ _); try discriminate H.
    exists new. split; [|exact Hfresh].
    destruct (Nat.eqb _ 0); injection H as _ <- _; reflexivity.
Qed.

(** The loops move keys from the target keys to the read keys and change
    nothing of a key but its attempts. *)
Definition keys_kept (a0 a : AmazonS3) : Prop :=
  map key_id (readKeys a ++ targetKeys a) = map key_id (readKeys a0 ++ targetKeys a0) /\
  exists moved, readKeys a = readKeys a0 ++ moved.

Lemma keys_kept_refl (a : AmazonS3) : keys_kept a a.
Proof. split; [reflexivity|]. exists []. symmetry. apply app_nil_r. Qed.

Lemma keys_kept_pop (a0 a : AmazonS3) : keys_kept a0 a -> keys_kept a0 (popTargetKey a).
Proof.
  intros [Hk [moved Hm]]. split.
  - rewrite popTargetKey_keys. exact Hk.
  - unfold popTargetKey. destruct (targetKeys a) as [|t rest]; [exists moved; exact Hm|].
    exists (moved ++ [t]). cbn. rewrite Hm, <- app_assoc. reflexivity.
Qed.

Lemma keys_kept_retry (a0 a : AmazonS3) target rest n :
  targetKeys a = target :: rest -> keys_kept a0 a ->
  keys_kept a0 (set_targetKeys (set_attempts n target :: rest) a).
Proof.
  intros Ht [Hk Hm]. split; [|exact Hm].
  rewrite <- Hk, Ht. cbn [readKeys targetKeys set_targetKeys].
  rewrite !map_app. reflexivity.
Qed.

Lemma read_loop_keys_kept (lib : Lib) (aws : Aws) :
  forall fuel timeoutAt msg a w m e a' w',
    read_loop lib aws fuel timeoutAt msg a w = Returns (m, e, a', w') -> keys_kept a a'.
Proof.
  intros fuel timeoutAt msg a w m e a' w' H.
  apply (read_loop_preserves lib aws (keys_kept a) (keys_kept_pop a)
           (fun a1 target rest n Ht Hk => keys_kept_retry a a1 target rest n Ht Hk)
           fuel timeoutAt msg a w m e a' w' (keys_kept_refl a) H).
Qed.

Lemma readFromMgr_loop_keys_kept (aws : Aws) :
  forall fuel timeoutAt msg a w m e a' w',
    readFromMgr_loop aws fuel timeoutAt msg a w = Returns (m, e, a', w') -> keys_kept a a'.
Proof.
  intros fuel timeoutAt msg a w m e a' w' H.
  apply (readFromMgr_loop_preserves aws (keys_kept a) (keys_kept_pop a)
           (fun a1 target rest n Ht Hk => keys_kept_retry a a1 target rest n Ht Hk)
           fuel timeoutAt msg a w m e a' w' (keys_kept_refl a) H).
Qed.

(** What [Read] does with the keys, for any way it returns. *)
Lemma Read_keys :
  forall (lib : Lib) (aws : Aws) (a : AmazonS3) (w : World)
         (m : option Message) (e : option error) (a' : AmazonS3) (w' : World),
    Read lib aws a w = Returns (m, e, a', w') ->
    exists new moved,
      map key_id (readKeys a' ++ targetKeys a') =
        map key_id (readKeys a ++ targetKeys a ++ new) /\
      readKeys a' = readKeys a ++ moved /\
      Forall (key_fresh (conf a)) new /\
      (session a = None \/ sqs a = None \/ targetKeys a <> [] -> new = []).
Proof.
  intros lib aws a w m e a' w' H.
  assert (Hgen : forall loop,
             (forall fuel timeoutAt msg a0 w0 m0 e0 a1 w1,
                 loop fuel timeoutAt msg a0 w0 = Returns (m0, e0, a1, w1) -> keys_kept a0 a1) ->
             read_with lib aws loop a w = Returns (m, e, a', w') ->
             exists new moved,
               map key_id (readKeys a' ++ targetKeys a') =
                 map key_id (readKeys a ++ targetKeys a ++ new) /\
               readKeys a' = readKeys a ++ moved /\
               Forall (key_fresh (conf a)) new /\
               (session a = None \/ sqs a = None \/ targetKeys a <> [] -> new = [])).
  { clear H. intros loop Hloop H. unfold read_with in H.
    assert (Hnone : exists new moved,
               map key_id (readKeys a ++ targetKeys a) =
                 map key_id (readKeys a ++ targetKeys a ++ new) /\
               readKeys a = readKeys a ++ moved /\
               Forall (key_fresh (conf a)) new /\
               (session a = None \/ sqs a = None \/ targetKeys a <> [] -> new = [])).
    { exists [], []. rewrite !app_nil_r. repeat split. constructor. }
    assert (Hbatch : forall new a1 w1,
               session a <> None ->
               a1 = set_targetKeys (targetKeys a ++ new) a ->
               Forall (key_fresh (conf a)) new ->
               (sqs a = None \/ targetKeys a <> [] -> new = []) ->
               (if Nat.eqb (List.length (targetKeys a1)) 0
                then Returns (None, Some ErrTimeout, a1, w1)
                else loop (S (List.length (targetKeys a1))) (Now aws (tick w) + timeout a)
                       Message_New a1 w1) = Returns (m, e, a', w') ->
               exists new moved,
                 map key_id (readKeys a' ++ targetKeys a') =
                   map key_id (readKeys a ++ targetKeys a ++ new) /\
                 readKeys a' = readKeys a ++ moved /\
                 Forall (key_fresh (conf a)) new /\
                 (session a = None \/ sqs a = None \/ targetKeys a <> [] -> new = [])).
    { intros new a1 w1 Hsess Ha1 Hfresh Hnew Hb. exists new.
      assert (Hkept : keys_kept a1 a').
      { destruct (Nat.eqb (List.length (targetKeys a1)) 0).
        - injection Hb as _ _ <- _. apply keys_kept_refl.
        - exact (Hloop _ _ _ _ _ _ _ _ _ Hb). }
      destruct Hkept as [Hk [moved Hm]]. exists moved. subst a1. cbn in Hk, Hm.
      split; [exact Hk|]. split; [exact Hm|]. split; [exact Hfresh|].
      intros [Hc|Hc]; [contradiction|apply Hnew; exact Hc]. }
    destruct (session a) as [s|] eqn:Hs; [|injection H as _ _ <- _; exact Hnone].
    destruct (Nat.eqb (List.length (targetKeys a)) 0) eqn:Hn.
    - destruct (sqs a) as [q|] eqn:Hq; [|injection H as _ _ <- _; exact Hnone].
      destruct (readSQSEvents lib aws a (clock_read w)) as [[[e1 a1] w1]| |] eqn:Hr;
        try discriminate H.
      destruct (readSQSEvents_result lib aws a (clock_read w) e1 a1 w1 Hr)
        as [new [Ha1 Hfresh]].
      assert (Hnew : sqs a = None \/ targetKeys a <> [] -> new = []).
      { intros [Hc|Hc]; [congruence|]. destruct (targetKeys a); [contradiction|discriminate Hn]. }
      rewrite Hq in Hnew.
      destruct e1 as [err|].
      + injection H as _ _ <- _. exists new, []. subst a1. cbn. rewrite app_nil_r.
        repeat split; try assumption.
        intros [Hc|[Hc|Hc]]; [congruence|congruence|]. apply Hnew. right. exact Hc.
      + exact (Hbatch new a1 w1 ltac:(discriminate) Ha1 Hfresh Hnew H).
    - apply (Hbatch [] a (clock_read w)).
      + discriminate.
      + rewrite app_nil_r. symmetry. apply set_targetKeys_eta.
      + constructor.
      + reflexivity.
      + rewrite Hn. exact H. }
  unfold Read, read, readFromMgr in H. destruct (readMethod a).
  - exact (Hgen _ (readFromMgr_loop_keys_kept aws) H).
  - exact (Hgen _ (read_loop_keys_kept lib aws) H).
Qed.

(** X15. [Read] loses no key and invents none.  When it returns, the read
    keys followed by the target keys are, attempts apart, what they were
    before, followed by the keys a round of [readSQSEvents] has added, each
    under the prefix; nothing is added unless the reader is connected to a
    queue and had no target key.  The read keys only grow at their end. *)
Theorem Read_loses_no_key :
  forall (lib : Lib) (aws : Aws) (a : AmazonS3) (w : World)
         (m : option Message) (e : option error) (a' : AmazonS3) (w' : World),
    Read lib aws a w = Returns (m, e, a', w') ->
    exists new moved,
      map key_id (readKeys a' ++ targetKeys a') =
        map key_id (readKeys a ++ targetKeys a ++ new) /\
      readKeys a' = readKeys a ++ moved /\
      Forall (key_fresh (conf a)) new /\
      (session a = None \/ sqs a = None \/ targetKeys a <> [] -> new = []).
Proof.
  intros lib aws a w m e a' w' H.
  destruct (Read_keys lib aws a w m e a' w' H) as [new [moved (Hk & Hm & Hf & Hn)]].
  exists new, moved. split; [exact Hk|]. split; [exact Hm|]. split; [exact Hf|exact Hn].
Qed.

Lemma Read_loses_no_key_witness :
  exists new moved,
    map key_id (readKeys (snd (fst example_queue_read)) ++
                targetKeys (snd (fst example_queue_read))) =
      map key_id (readKeys (snd (fst example_queue_connected)) ++
                  targetKeys (snd (fst example_queue_connected)) ++ new) /\
    readKeys (snd (fst example_queue_read)) =
      readKeys (snd (fst example_queue_connected)) ++ moved /\
    Forall (key_fresh (conf (snd (fst example_queue_connected)))) new /\
    (session (snd (fst example_queue_connected)) = None \/
     sqs (snd (fst example_queue_connected)) = None \/
     targetKeys (snd (fst example_queue_connected)) <> [] -> new = []).
Proof.
  exact (Read_loses_no_key example_lib example_queue_aws
           (snd (fst example_queue_connected)) (snd example_queue_connected)
           (fst (fst (fst example_queue_read))) (snd (fst (fst example_queue_read)))
           (snd (fst example_queue_read)) (snd example_queue_read) eq_refl).
Defined.

(** X16. A refused batch is back where it was.  When a reader with no
    unacknowledged key reads without a round of [readSQSEvents] and the read is
    then acknowledged with an error, the target keys are, attempts apart, the
    ones before the read, in the same order, and no key is left as read. *)
Theorem Read_then_refuse_restores_target_keys :
  forall (lib : Lib) (aws : Aws) (a : AmazonS3) (w : World)
         (m : option Message) (e : option error) (a1 : AmazonS3) (w1 : World) (err : error),
    readKeys a = [] ->
    sqs a = None \/ targetKeys a <> [] ->
    Read lib aws a w = Returns (m, e, a1, w1) ->
    exists a2,
      Acknowledge (Some err) a1 w1 = Returns (None, a2, w1) /\
      map key_id (targetKeys a2) = map key_id (targetKeys a) /\
      readKeys a2 = [].
Proof.
  intros lib aws a w m e a1 w1 err Hrk Hcase H.
  destruct (Read_keys lib aws a w m e a1 w1 H) as [new [moved (Hk & _ & _ & Hnew)]].
  rewrite (Hnew (or_intror Hcase)), app_nil_r, Hrk in Hk.
  eexists. split; [reflexivity|]. cbn. split; [exact Hk|reflexivity].
Qed.

Lemma Read_then_refuse_restores_target_keys_witness :
  exists a2,
    Acknowledge (Some ErrTimeout) (snd (fst example_bucket_read)) (snd example_bucket_read) =
      Returns (None, a2, snd example_bucket_read) /\
    map key_id (targetKeys a2) = map key_id (targetKeys (snd (fst example_bucket_connected))) /\
    readKeys a2 = [].
Proof.
  exact (Read_then_refuse_restores_target_keys example_lib (example_aws [])
           (snd (fst example_bucket_connected)) (snd example_bucket_connected)
           (fst (fst (fst example_bucket_read))) (snd (fst (fst example_bucket_read)))
           (snd (fst example_bucket_read)) (snd example_bucket_read) ErrTimeout
           eq_refl (or_introl eq_refl) eq_refl).
Defined.

(** ** [Read]: the first key *)

Lemma int_wrap_pred_nonzero (n : Z) :
  n <> 1 -> - 2 ^ 63 <= n < 2 ^ 63 -> int_wrap (n - 1) <> 0.
Proof.
  intros Hn Hr. unfold int_wrap.
  change (2 ^ 63) with 9223372036854775808 in *.
  change (2 ^ 64) with 18446744073709551616.
  destruct (Z.eq_dec n (-9223372036854775808)) as [->|Hmin]; [vm_compute; discriminate|].
  rewrite Z.mod_small by lia. lia.
Qed.

Lemma meta_Get_Set_same (k v : string) (m : list (string * string)) :
  meta_Get k (meta_Set k v m) = Some v.
Proof.
  induction m as [|[k' v'] m IH]; cbn.
  - rewrite String.eqb_refl. reflexivity.
  - destruct (String.eqb k k') eqn:E; cbn; [rewrite String.eqb_refl|rewrite E]; auto.
Qed.

Lemma meta_Get_Set_other (k k' v : string) (m : list (string * string)) :
  k <> k' -> meta_Get k (meta_Set k' v m) = meta_Get k m.
Proof.
  intro Hne. apply String.eqb_neq in Hne.
  induction m as [|[k0 v0] m IH]; cbn.
  - rewrite Hne. reflexivity.
  - destruct (String.eqb k' k0) eqn:E; cbn.
    + apply String.eqb_eq in E. subst k0. rewrite Hne. reflexivity.
    + rewrite IH. reflexivity.
Qed.

Lemma addS3Metadata_other (lib : Lib) (k : string) (p : Part) (obj : GetObjectOutput) :
  k <> "s3_last_modified" -> k <> "s3_last_modified_unix" -> k <> "s3_content_type" ->
  meta_Get k (metadata (addS3Metadata lib p obj)) = meta_Get k (metadata p) /\
  payload (addS3Metadata lib p obj) = payload p.
Proof.
  intros H1 H2 H3. unfold addS3Metadata.
  destruct (LastModified obj), (ContentType obj); cbn [Part_Set metadata payload];
    rewrite ?meta_Get_Set_other by assumption; split; reflexivity.
Qed.

(** A part that [fetch] gives is the part of its key. *)
Lemma fetch_part_of (lib : Lib) (aws : Aws) (a : AmazonS3) (n : nat) (k : objKey) (p : Part) :
  fetch lib aws a n k = FetchedPart p -> part_of (conf a) k p.
Proof.
  unfold fetch, part_of. destruct (readMethod a).
  - destruct (Download aws n _ _) as [e|buff]; [discriminate|].
    intro H. injection H as <-. cbn [Part_Set metadata].
    split; [|apply meta_Get_Set_same].
    rewrite meta_Get_Set_other by (intro E; discriminate E). apply meta_Get_Set_same.
  - destruct (GetObject aws n _ _) as [e|obj]; [discriminate|].
    destruct (ObjBody obj) as [e|data]; [discriminate|].
    intro H. injection H as <-.
    split.
    + rewrite (proj1 (addS3Metadata_other lib "s3_key" _ obj ltac:(intro E; discriminate E)
                        ltac:(intro E; discriminate E) ltac:(intro E; discriminate E))).
      cbn [Part_Set metadata].
      rewrite meta_Get_Set_other by (intro E; discriminate E). apply meta_Get_Set_same.
    + rewrite (proj1 (addS3Metadata_other lib "s3_bucket" _ obj ltac:(intro E; discriminate E)
                        ltac:(intro E; discriminate E) ltac:(intro E; discriminate E))).
      cbn [Part_Set metadata]. apply meta_Get_Set_same.
Qed.

(** [Read] on a connected reader with a target key and time left, up to the
    end of the first round of its loop. *)
Lemma Read_first_round (lib : Lib) (aws : Aws) (a : AmazonS3) (w : World) k rest :
  session a <> None -> s3 a <> None -> downloader a <> None ->
  targetKeys a = k :: rest ->
  1 <= MaxBatchCount (conf a) ->
  0 < Now aws (tick w) + timeout a - Now aws (S (tick w)) ->
  let w1 := emit (download_request a k) (clock_read (clock_read w)) in
  let timeoutAt := Now aws (tick w) + timeout a in
  Read lib aws a w =
    match fetch lib aws a (S (S (tick w))) k with
    | FetchFailed err =>
        if int_wrap (attempts k - 1) =? 0
        then loop_of lib aws a (S (List.length rest)) timeoutAt Message_New (popTargetKey a) w1
        else Returns (None, Some (download_failed (s3Key k) (bucket_of (conf a) k) err),
                      set_targetKeys (set_attempts (int_wrap (attempts k - 1)) k :: rest) a, w1)
    | BodyFailed err =>
        Returns (None, Some (download_failed (s3Key k) (bucket_of (conf a) k) err),
                 popTargetKey a, w1)
    | FetchedPart p =>
        loop_of lib aws a (S (List.length rest)) timeoutAt (Message_Append Message_New p)
          (popTargetKey a) w1
    end.
Proof.
  intros Hs Hs3 Hdl Htk Hmax Htime w1 timeoutAt. subst w1 timeoutAt.
  assert (Hlen : (Message_Len Message_New <? MaxBatchCount (conf a)) = true)
    by (apply Z.ltb_lt; cbn; lia).
  apply Z.ltb_lt in Htime.
  unfold Read, read, readFromMgr, read_with, fetch, loop_of, download_request.
  destruct (session a); [|congruence]. rewrite Htk. cbn [List.length Nat.eqb].
  destruct (readMethod a).
  - cbn [readFromMgr_loop]. rewrite Htk, Hlen. cbn [negb clock_read tick].
    rewrite Htime. cbn [negb]. destruct (downloader a); [|congruence].
    destruct (Download aws _ _ _) as [err|buff]; [|reflexivity].
    cbn [set_attempts attempts]. destruct (int_wrap (attempts k - 1) =? 0); reflexivity.
  - cbn [read_loop]. rewrite Htk, Hlen. cbn [negb clock_read tick].
    rewrite Htime. cbn [negb]. destruct (s3 a); [|congruence].
    destruct (GetObject aws _ _ _) as [err|obj].
    + cbn [set_attempts attempts]. destruct (int_wrap (attempts k - 1) =? 0); reflexivity.
    + destruct (ObjBody obj); reflexivity.
Qed.

(** X17. A download that fails before the attempts of the key are used up
    is tried again by a later [Read]: the [Read] that meets the failure on its
    first key returns an error that names the key and the bucket, and no
    message; the key stays the first target key with one attempt less, the
    read keys are untouched, and the download is the only request.  This is
    the case of every key whose attempts are not exactly one: with [retries]
    at zero or below a key is never given up. *)
Theorem Read_keeps_key_for_retry :
  forall (lib : Lib) (aws : Aws) (a : AmazonS3) (w : World) (k : objKey)
         (rest : list objKey) (err : error),
    reachable lib a ->
    session a <> None ->
    targetKeys a = k :: rest ->
    0 < Now aws (tick w) + timeout a - Now aws (S (tick w)) ->
    fetch lib aws a (S (S (tick w))) k = FetchFailed err ->
    attempts k <> 1 ->
    - 2 ^ 63 <= attempts k < 2 ^ 63 ->
    exists a',
      Read lib aws a w =
        Returns (None, Some (download_failed (s3Key k) (bucket_of (conf a) k) err), a',
                 emit (download_request a k) (clock_read (clock_read w))) /\
      targetKeys a' = set_attempts (int_wrap (attempts k - 1)) k :: rest /\
      readKeys a' = readKeys a /\
      int_wrap (attempts k - 1) <> 0.
Proof.
  intros lib aws a w k rest err Hreach Hs Htk Htime Hfetch Hn Hrange.
  pose proof (reachable_Inv lib a Hreach) as HI.
  destruct (inv_connected HI Hs) as (Hs3 & Hdl & _).
  pose proof (int_wrap_pred_nonzero (attempts k) Hn Hrange) as Hnz.
  rewrite (Read_first_round lib aws a w k rest Hs Hs3 Hdl Htk (inv_batch HI) Htime), Hfetch.
  apply Z.eqb_neq in Hnz. rewrite Hnz. apply Z.eqb_neq in Hnz.
  eexists. split; [reflexivity|]. repeat split. exact Hnz.
Qed.

Lemma reachable_example_retry_connected :
  reachable example_lib (snd (fst example_retry_connected)).
Proof.
  eapply reach_Connect with (aws := example_aws []) (w := example_world);
    [apply reach_New with (c := example_conf_batch 1)|]; reflexivity.
Qed.

Lemma reachable_example_objects_connected_1 :
  reachable example_lib (snd (fst (example_objects_connected 1))).
Proof.
  eapply reach_Connect with (aws := example_aws_objects) (w := example_world);
    [apply reach_New with (c := example_conf_batch 1)|]; reflexivity.
Qed.

Lemma reachable_example_objects_connected_2 :
  reachable example_lib (snd (fst (example_objects_connected 2))).
Proof.
  eapply reach_Connect with (aws := example_aws_objects) (w := example_world);
    [apply reach_New with (c := example_conf_batch 2)|]; reflexivity.
Qed.

Lemma Read_keeps_key_for_retry_witness :
  exists a',
    Read example_lib (example_aws []) (snd (fst example_retry_connected))
      (snd example_retry_connected) =
      Returns (None, Some (download_failed "gone" "b" (ErrLib "NoSuchKey")), a',
               emit (EvGetObject "b" "gone")
                 (clock_read (clock_read (snd example_retry_connected)))) /\
    targetKeys a' = [mkObjKey "gone" "" 2 None] /\
    readKeys a' = [].
Proof.
  destruct (Read_keeps_key_for_retry example_lib (example_aws [])
              (snd (fst example_retry_connected)) (snd example_retry_connected)
              (mkObjKey "gone" "" 3 None) [] (ErrLib "NoSuchKey")
              reachable_example_retry_connected
              ltac:(vm_compute; discriminate) eq_refl ltac:(vm_compute; reflexivity) eq_refl
              ltac:(vm_compute; discriminate)
              ltac:(cbn [attempts]; lia))
    as [a' (Hrun & Htk & Hrk & _)].
  exists a'. split; [exact Hrun|]. split; [exact Htk|exact Hrk].
Defined.

(** X18. With [max_batch_count] at one, a [Read] whose first key can be
    fetched returns a message of exactly one part, the one fetched; the part
    names the key and the bucket it was read from in its metadata; the key is
    moved to the end of the read keys, the other target keys are left, and the
    download is the only request. *)
Theorem Read_one_object_per_message :
  forall (lib : Lib) (aws : Aws) (a : AmazonS3) (w : World) (k : objKey)
         (rest : list objKey) (p : Part),
    reachable lib a ->
    session a <> None ->
    targetKeys a = k :: rest ->
    MaxBatchCount (conf a) = 1 ->
    0 < Now aws (tick w) + timeout a - Now aws (S (tick w)) ->
    fetch lib aws a (S (S (tick w))) k = FetchedPart p ->
    Read lib aws a w =
      Returns (Some (mkMessage [p]), None,
               set_readKeys (readKeys a ++ [k]) (set_targetKeys rest a),
               emit (download_request a k) (clock_read (clock_read w))) /\
    part_of (conf a) k p.
Proof.
  intros lib aws a w k rest p Hreach Hs Htk Hmax Htime Hfetch.
  pose proof (reachable_Inv lib a Hreach) as HI.
  destruct (inv_connected HI Hs) as (Hs3 & Hdl & _).
  split; [|exact (fetch_part_of lib aws a _ k p Hfetch)].
  rewrite (Read_first_round lib aws a w k rest Hs Hs3 Hdl Htk (inv_batch HI) Htime), Hfetch.
  assert (Hpop : popTargetKey a = set_readKeys (readKeys a ++ [k]) (set_targetKeys rest a)).
  { unfold popTargetKey. rewrite Htk. reflexivity. }
  rewrite Hpop. unfold loop_of.
  destruct (readMethod a); cbn [read_loop readFromMgr_loop];
    cbn [targetKeys set_readKeys set_targetKeys conf]; rewrite Hmax;
    destruct rest; reflexivity.
Qed.

Lemma Read_one_object_per_message_witness :
  exists p a' w',
    Read example_lib example_aws_objects (snd (fst (example_objects_connected 1)))
      (snd (example_objects_connected 1)) = Returns (Some (mkMessage [p]), None, a', w') /\
    payload p = [Byte.x68; Byte.x69] /\
    part_of (example_conf_batch 1) (mkObjKey "k1" "" 3 None) p /\
    map s3Key (readKeys a') = ["k1"] /\
    map s3Key (targetKeys a') = ["bad"; "gone"].
Proof.
  eexists. eexists. eexists.
  match goal with
  | |- Read _ _ ?a ?w = Returns (Some (mkMessage [?p]), _, _, _) /\ _ =>
      destruct (Read_one_object_per_message example_lib example_aws_objects a w
                  (mkObjKey "k1" "" 3 None)
                  [mkObjKey "bad" "" 3 None; mkObjKey "gone" "" 3 None]
                  (match fetch example_lib example_aws_objects a 2 (mkObjKey "k1" "" 3 None) with
                   | FetchedPart q => q
                   | _ => NewPart []
                   end)
                  reachable_example_objects_connected_1
                  ltac:(vm_compute; discriminate) eq_refl eq_refl
                  ltac:(vm_compute; reflexivity) eq_refl) as [Hrun Hpart]
  end.
  split; [exact Hrun|]. split; [reflexivity|]. split; [exact Hpart|]. split; reflexivity.
Defined.

(** X19. Without the download manager, when the body of an object cannot
    be read after another object has been fetched for the same message, [Read]
    returns the error alone: the part already fetched is not delivered, and
    yet both keys are now read keys, the keys an [Acknowledge(nil)] goes
    through. *)
Theorem read_body_failure_discards_batch :
  forall (lib : Lib) (aws : Aws) (a : AmazonS3) (w : World) (k1 k2 : objKey)
         (rest : list objKey) (p1 : Part) (err : error),
    reachable lib a ->
    session a <> None ->
    targetKeys a = k1 :: k2 :: rest ->
    2 <= MaxBatchCount (conf a) ->
    0 < Now aws (tick w) + timeout a - Now aws (S (tick w)) ->
    0 < Now aws (tick w) + timeout a - Now aws (S (S (S (tick w)))) ->
    fetch lib aws a (S (S (tick w))) k1 = FetchedPart p1 ->
    fetch lib aws a (S (S (S (S (tick w))))) k2 = BodyFailed err ->
    exists a' w',
      Read lib aws a w =
        Returns (None, Some (download_failed (s3Key k2) (bucket_of (conf a) k2) err), a', w') /\
      readKeys a' = readKeys a ++ [k1; k2] /\
      targetKeys a' = rest /\
      trace w' = trace w ++ [download_request a k1; download_request a k2].
Proof.
  intros lib aws a w k1 k2 rest p1 err Hreach Hs Htk Hmax Htime1 Htime2 Hfetch1 Hfetch2.
  pose proof (reachable_Inv lib a Hreach) as HI.
  destruct (inv_connected HI Hs) as (Hs3 & Hdl & _).
  rewrite (Read_first_round lib aws a w k1 (k2 :: rest) Hs Hs3 Hdl Htk (inv_batch HI) Htime1),
    Hfetch1.
  assert (Hm : readMethod a = method_read).
  { unfold fetch in Hfetch2. destruct (readMethod a); [|reflexivity].
    destruct (Download aws _ _ _); discriminate Hfetch2. }
  assert (Hget : exists obj,
             GetObject aws (S (S (S (S (tick w))))) (bucket_of (conf a) k2) (s3Key k2) = inr obj /\
             ObjBody obj = inl err).
  { unfold fetch in Hfetch2. rewrite Hm in Hfetch2.
    destruct (GetObject aws _ _ _) as [e|obj]; [discriminate Hfetch2|].
    exists obj. split; [reflexivity|].
    destruct (ObjBody obj) as [e|data]; [|discriminate Hfetch2].
    injection Hfetch2 as ->. reflexivity. }
  destruct Hget as [obj [Hget Hbody]].
  assert (Hpop : popTargetKey a =
                 set_readKeys (readKeys a ++ [k1]) (set_targetKeys (k2 :: rest) a)).
  { unfold popTargetKey. rewrite Htk. reflexivity. }
  assert (Hlen : (Message_Len (Message_Append Message_New p1) <? MaxBatchCount (conf a)) = true).
  { apply Z.ltb_lt. cbn. lia. }
  apply Z.ltb_lt in Htime2.
  unfold loop_of, download_request. rewrite Hm, Hpop. cbn [List.length read_loop].
  cbn [targetKeys set_readKeys set_targetKeys conf s3]. rewrite Hlen. cbn [negb].
  cbn [emit clock_read tick]. rewrite Htime2. cbn [negb].
  destruct (s3 a) as [c|]; [|congruence]. rewrite Hget, Hbody.
  eexists. eexists. split; [reflexivity|]. cbn. rewrite <- !app_assoc. repeat split.
Qed.

Lemma read_body_failure_discards_batch_witness :
  exists a' w',
    Read example_lib example_aws_objects (snd (fst (example_objects_connected 2)))
      (snd (example_objects_connected 2)) =
      Returns (None, Some (download_failed "bad" "b" (ErrLib "unexpected EOF")), a', w') /\
    map s3Key (readKeys a') = ["k1"; "bad"] /\
    map s3Key (targetKeys a') = ["gone"].
Proof.
  destruct (read_body_failure_discards_batch example_lib example_aws_objects
              (snd (fst (example_objects_connected 2))) (snd (example_objects_connected 2))
              (mkObjKey "k1" "" 3 None) (mkObjKey "bad" "" 3 None) [mkObjKey "gone" "" 3 None]
              (match fetch example_lib example_aws_objects
                       (snd (fst (example_objects_connected 2))) 2
                       (mkObjKey "k1" "" 3 None) with
               | FetchedPart q => q
               | _ => NewPart []
               end)
              (ErrLib "unexpected EOF")
              reachable_example_objects_connected_2
              ltac:(vm_compute; discriminate) eq_refl ltac:(vm_compute; discriminate)
              ltac:(vm_compute; reflexivity) ltac:(vm_compute; reflexivity) eq_refl eq_refl)
    as [a' [w' (Hrun & Hrk & Htk & _)]].
  exists a', w'. split; [exact Hrun|]. rewrite Hrk, Htk. split; reflexivity.
Defined.

(** ** [Read]: the parts and the requests *)

Lemma read_part_of (lib : Lib) (c : AmazonS3Config) (k : objKey) (data : bytes)
    (obj : GetObjectOutput) :
  part_of c k
    (addS3Metadata lib
       (Part_Set "s3_bucket" (bucket_of c k)
          (Part_Set "s3_key" (s3Key k)
             (fold_left (fun p kv => Part_Set (fst kv) (snd kv) p)
                (ObjMetadata obj) (NewPart data)))) obj).
Proof.
  split.
  - rewrite (proj1 (addS3Metadata_other lib "s3_key" _ obj ltac:(intro E; discriminate E)
                      ltac:(intro E; discriminate E) ltac:(intro E; discriminate E))).
    cbn [Part_Set metadata].
    rewrite meta_Get_Set_other by (intro E; discriminate E). apply meta_Get_Set_same.
  - rewrite (proj1 (addS3Metadata_other lib "s3_bucket" _ obj ltac:(intro E; discriminate E)
                      ltac:(intro E; discriminate E) ltac:(intro E; discriminate E))).
    cbn [Part_Set metadata]. apply meta_Get_Set_same.
Qed.

Lemma readFromMgr_part_of (c : AmazonS3Config) (k : objKey) (buff : bytes) :
  part_of c k (Part_Set "s3_bucket" (bucket_of c k) (Part_Set "s3_key" (s3Key k) (NewPart buff))).
Proof.
  split; cbn [Part_Set metadata]; [|apply meta_Get_Set_same].
  rewrite meta_Get_Set_other by (intro E; discriminate E). apply meta_Get_Set_same.
Qed.

Lemma parts_covered_nil (c : AmazonS3Config) : parts_covered c [] [].
Proof. split; [apply le_n|constructor]. Qed.

Lemma parts_covered_dropped (c : AmazonS3Config) (k : objKey) moved newParts :
  parts_covered c moved newParts -> parts_covered c (k :: moved) newParts.
Proof.
  intros [Hl Hf]. split; [cbn; lia|].
  eapply Forall_impl; [|exact Hf]. intros p [k0 [Hin Hp]]. exists k0. split; [right|]; assumption.
Qed.

Lemma parts_covered_fetched (c : AmazonS3Config) (k : objKey) (p : Part) moved newParts :
  part_of c k p -> parts_covered c moved newParts ->
  parts_covered c (k :: moved) (p :: newParts).
Proof.
  intros Hp Hc. destruct (parts_covered_dropped c k moved newParts Hc) as [Hl Hf].
  destruct Hc as [Hl0 _]. split; [cbn; lia|].
  constructor; [|exact Hf]. exists k. split; [left; reflexivity|exact Hp].
Qed.

Lemma readKeys_popTargetKey (a : AmazonS3) k rest :
  targetKeys a = k :: rest -> readKeys (popTargetKey a) = readKeys a ++ [k].
Proof. intro H. unfold popTargetKey. rewrite H. reflexivity. Qed.

Lemma read_loop_parts (lib : Lib) (aws : Aws) :
  forall fuel timeoutAt msg a w m e a' w',
    read_loop lib aws fuel timeoutAt msg a w = Returns (Some m, e, a', w') ->
    exists newParts moved,
      parts m = parts msg ++ newParts /\
      readKeys a' = readKeys a ++ moved /\
      parts_covered (conf a) moved newParts.
Proof.
  induction fuel as [|fuel IH]; intros timeoutAt msg a w m e a' w' H; [discriminate H|].
  assert (Hexit : forall a1 w1,
             readKeys a1 = readKeys a ->
             Returns (Some msg, @None error, a1, w1) = Returns (Some m, e, a', w') ->
             exists newParts moved,
               parts m = parts msg ++ newParts /\
               readKeys a' = readKeys a ++ moved /\
               parts_covered (conf a) moved newParts).
  { intros a1 w1 Hrk Hx. injection Hx as <- _ <- _. exists [], [].
    rewrite !app_nil_r. split; [reflexivity|]. split; [exact Hrk|apply parts_covered_nil]. }
  cbn [read_loop] in H.
  destruct (targetKeys a) as [|target rest] eqn:Htk; [exact (Hexit a w eq_refl H)|].
  destruct (negb (Message_Len msg <? MaxBatchCount (conf a))); [exact (Hexit a w eq_refl H)|].
  destruct (negb (0 <? timeoutAt - Now aws (tick w))); [exact (Hexit a _ eq_refl H)|].
  destruct (s3 a); [|discriminate H].
  destruct (GetObject aws _ _ _) as [err|obj].
  - destruct (attempts _ =? 0).
    + apply IH in H. destruct H as [np [mv (Hp & Hr & Hc)]].
      exists np, (target :: mv). split; [exact Hp|].
      rewrite Hr, (readKeys_popTargetKey a target rest Htk), <- app_assoc.
      split; [reflexivity|]. rewrite conf_popTargetKey in Hc.
      apply parts_covered_dropped. exact Hc.
    + destruct (Message_Len msg =? 0); [discriminate H|]. refine (Hexit _ _ _ H). reflexivity.
  - destruct (ObjBody obj) as [err|data]; [discriminate H|].
    apply IH in H. destruct H as [np [mv (Hp & Hr & Hc)]].
    eexists (_ :: np), (target :: mv). split; [|split].
    + rewrite Hp. cbn [Message_Append parts]. rewrite <- app_assoc. reflexivity.
    + rewrite Hr, (readKeys_popTargetKey a target rest Htk), <- app_assoc. reflexivity.
    + rewrite conf_popTargetKey in Hc.
      apply parts_covered_fetched; [apply read_part_of|exact Hc].
Qed.

Lemma readFromMgr_loop_parts (aws : Aws) :
  forall fuel timeoutAt msg a w m e a' w',
    readFromMgr_loop aws fuel timeoutAt msg a w = Returns (Some m, e, a', w') ->
    exists newParts moved,
      parts m = parts msg ++ newParts /\
      readKeys a' = readKeys a ++ moved /\
      parts_covered (conf a) moved newParts.
Proof.
  induction fuel as [|fuel IH]; intros timeoutAt msg a w m e a' w' H; [discriminate H|].
  assert (Hexit : forall a1 w1,
             readKeys a1 = readKeys a ->
             Returns (Some msg, @None error, a1, w1) = Returns (Some m, e, a', w') ->
             exists newParts moved,
               parts m = parts msg ++ newParts /\
               readKeys a' = readKeys a ++ moved /\
               parts_covered (conf a) moved newParts).
  { intros a1 w1 Hrk Hx. injection Hx as <- _ <- _. exists [], [].
    rewrite !app_nil_r. split; [reflexivity|]. split; [exact Hrk|apply parts_covered_nil]. }
  cbn [readFromMgr_loop] in H.
  destruct (targetKeys a) as [|target rest] eqn:Htk; [exact (Hexit a w eq_refl H)|].
  destruct (negb (Message_Len msg <? MaxBatchCount (conf a))); [exact (Hexit a w eq_refl H)|].
  destruct (negb (0 <? timeoutAt - Now aws (tick w))); [exact (Hexit a _ eq_refl H)|].
  destruct (downloader a); [|discriminate H].
  destruct (Download aws _ _ _) as [err|buff].
  - destruct (attempts _ =? 0).
    + apply IH in H. destruct H as [np [mv (Hp & Hr & Hc)]].
      exists np, (target :: mv). split; [exact Hp|].
      rewrite Hr, (readKeys_popTargetKey a target rest Htk), <- app_assoc.
      split; [reflexivity|]. rewrite conf_popTargetKey in Hc.
      apply parts_covered_dropped. exact Hc.
    + destruct (Message_Len msg =? 0); [discriminate H|]. refine (Hexit _ _ _ H). reflexivity.
  - apply IH in H. destruct H as [np [mv (Hp & Hr & Hc)]].
    eexists (_ :: np), (target :: mv). split; [|split].
    + rewrite Hp. cbn [Message_Append parts]. rewrite <- app_assoc. reflexivity.
    + rewrite Hr, (readKeys_popTargetKey a target rest Htk), <- app_assoc. reflexivity.
    + rewrite conf_popTargetKey in Hc.
      apply parts_covered_fetched; [apply readFromMgr_part_of|exact Hc].
Qed.

(** X20. Every part of a message [Read] returns is covered by the next
    acknowledgement: it names, in its metadata [s3_key] and [s3_bucket], a key
    that this [Read] has added to the read keys and the bucket that key is read
    from, and the message has no more parts than keys were added. *)
Theorem Read_parts_are_read_keys :
  forall (lib : Lib) (aws : Aws) (a : AmazonS3) (w : World)
         (m : Message) (e : option error) (a' : AmazonS3) (w' : World),
    Read lib aws a w = Returns (Some m, e, a', w') ->
    exists moved,
      readKeys a' = readKeys a ++ moved /\
      (List.length (parts m) <= List.length moved)%nat /\
      Forall (fun p => exists k, In k moved /\ part_of (conf a) k p) (parts m).
Proof.
  intros lib aws a w m e a' w' H.
  assert (Hgen : forall loop,
             (forall fuel timeoutAt msg a0 w0 m0 e0 a1 w1,
                 loop fuel timeoutAt msg a0 w0 = Returns (Some m0, e0, a1, w1) ->
                 exists newParts moved,
                   parts m0 = parts msg ++ newParts /\
                   readKeys a1 = readKeys a0 ++ moved /\
                   parts_covered (conf a0) moved newParts) ->
             read_with lib aws loop a w = Returns (Some m, e, a', w') ->
             exists moved,
               readKeys a' = readKeys a ++ moved /\
               parts_covered (conf a) moved (parts m)).
  { clear H. intros loop Hloop H. unfold read_with in H.
    assert (Hbatch : forall a1 w1,
               conf a1 = conf a -> readKeys a1 = readKeys a ->
               (if Nat.eqb (List.length (targetKeys a1)) 0
                then Returns (None, Some ErrTimeout, a1, w1)
                else loop (S (List.length (targetKeys a1))) (Now aws (tick w) + timeout a)
                       Message_New a1 w1) = Returns (Some m, e, a', w') ->
               exists moved,
                 readKeys a' = readKeys a ++ moved /\
                 parts_covered (conf a) moved (parts m)).
    { intros a1 w1 Hconf Hrk Hb.
      destruct (Nat.eqb (List.length (targetKeys a1)) 0); [discriminate Hb|].
      apply Hloop in Hb. destruct Hb as [np [mv (Hp & Hr & Hc)]].
      exists mv. cbn in Hp. rewrite Hp, Hr, Hrk. rewrite Hconf in Hc.
      split; [reflexivity|exact Hc]. }
    destruct (session a); [|discriminate H].
    destruct (Nat.eqb (List.length (targetKeys a)) 0) eqn:Hn.
    - destruct (sqs a); [|discriminate H].
      destruct (readSQSEvents lib aws a (clock_read w)) as [[[e1 a1] w1]| |] eqn:Hr;
        try discriminate H.
      apply readSQSEvents_same in Hr. destruct Hr as [(Hconf & _) Hrk].
      destruct e1; [discriminate H|]. exact (Hbatch a1 w1 Hconf Hrk H).
    - apply (Hbatch a (clock_read w) eq_refl eq_refl). rewrite Hn. exact H. }
  assert (Hres : exists moved,
             readKeys a' = readKeys a ++ moved /\ parts_covered (conf a) moved (parts m)).
  { unfold Read, read, readFromMgr in H. destruct (readMethod a).
    - exact (Hgen _ (readFromMgr_loop_parts aws) H).
    - exact (Hgen _ (read_loop_parts lib aws) H). }
  destruct Hres as [moved [Hrk [Hl Hf]]]. exists moved. repeat split; assumption.
Qed.

Lemma Read_parts_are_read_keys_witness :
  exists moved,
    readKeys (snd (fst example_queue_read)) =
      readKeys (snd (fst example_queue_connected)) ++ moved /\
    (List.length (parts (mkMessage [mkPart [] [("s3_key", "k1"); ("s3_bucket", "b")]]))
     <= List.length moved)%nat /\
    Forall (fun p => exists k, In k moved /\
                               part_of (conf (snd (fst example_queue_connected))) k p)
      (parts (mkMessage [mkPart [] [("s3_key", "k1"); ("s3_bucket", "b")]])).
Proof.
  exact (Read_parts_are_read_keys example_lib example_queue_aws
           (snd (fst example_queue_connected)) (snd example_queue_connected)
           (mkMessage [mkPart [] [("s3_key", "k1"); ("s3_bucket", "b")]])
           (snd (fst (fst example_queue_read)))
           (snd (fst example_queue_read)) (snd example_queue_read) eq_refl).
Defined.






(** ** [digStrsFromSlices] *)

(** X22. [digStrsFromSlices] gives the strings of a slice from left to right
    and looks into slices within slices at any depth: a slice of strings comes
    back as it is, a slice within the slice counts for its own strings, values
    that are neither strings nor slices are passed over, and the strings of two
    slices put end to end are the strings of the one followed by those of the
    other. *)
Theorem digStrsFromSlices_flattens :
  (forall strs : list string, digStrsFromSlices (map VStr strs) = strs) /\
  (forall s1 s2 : list Value,
      digStrsFromSlices (s1 ++ s2) = digStrsFromSlices s1 ++ digStrsFromSlices s2) /\
  (forall (t : list Value) (rest : list Value),
      digStrsFromSlices (VArr t :: rest) = digStrsFromSlices t ++ digStrsFromSlices rest) /\
  (forall (v : Value) (rest : list Value),
      match v with
      | VStr _ | VArr _ => True
      | _ => digStrsFromSlices (v :: rest) = digStrsFromSlices rest
      end) /\
  (forall strs : list string,
      digStrsFromSlices [VArr [VArr (map VStr strs)]] = strs).
Proof.
  assert (Hstrs : forall strs : list string, digStrsFromSlices (map VStr strs) = strs).
  { induction strs as [|s strs IH]; [reflexivity|].
    cbn [map]. unfold digStrsFromSlices in *. cbn [flat_map digStrsFromValue app].
    rewrite IH. reflexivity. }
  split; [exact Hstrs|]. split; [|split; [|split]].
  - intros s1 s2. unfold digStrsFromSlices. apply flat_map_app.
  - intros t rest. reflexivity.
  - intros v rest. destruct v; try exact I; reflexivity.
  - intro strs. unfold digStrsFromSlices. cbn [flat_map digStrsFromValue].
    rewrite !app_nil_r. exact (Hstrs strs).
Qed.

(** ** The decompress processor, further *)

(** [NewDecompress] knows one algorithm: for ["gzip"] it builds the
    processor that applies [gzipDecompress] under the given configuration, for
    every other name it returns an error that names it, and no processor. *)
Theorem NewDecompress_gzip_only :
  forall (gz : Processor.Gzip) (c : Processor.DecompressConfig),
    (Processor.Algorithm c = "gzip" ->
     Processor.NewDecompress gz c =
       inr (Processor.mkDecompress c (Processor.gzipDecompress gz))) /\
    (Processor.Algorithm c <> "gzip" ->
     Processor.NewDecompress gz c =
       inl (Errorf "decompression type not recognised: %v" [ArgStr (Processor.Algorithm c)])).
Proof.
  intros gz c. unfold Processor.NewDecompress, Processor.strToDecompressor. split; intro H.
  - rewrite H. reflexivity.
  - apply String.eqb_neq in H. rewrite H. reflexivity.
Qed.

Lemma NewDecompress_gzip_only_witness :
  Processor.NewDecompress example_gzip Processor.NewDecompressConfig =
    inr (Processor.mkDecompress Processor.NewDecompressConfig
           (Processor.gzipDecompress example_gzip)) /\
  Processor.NewDecompress example_gzip (Processor.mkDecompressConfig "lz4" []) =
    inl (Errorf "decompression type not recognised: %v" [ArgStr "lz4"]).
Proof.
  split.
  - exact (proj1 (NewDecompress_gzip_only example_gzip Processor.NewDecompressConfig) eq_refl).
  - exact (proj2 (NewDecompress_gzip_only example_gzip (Processor.mkDecompressConfig "lz4" []))
             ltac:(intro E; discriminate E)).
Defined.

Lemma ProcessMessage_result (d : Processor.Decompress) (msg : Processor.Message) :
  Processor.ProcessMessage d msg =
    match Processor.parts_result d msg with
    | [] => ([], Some (Processor.NewSimpleResponse None))
    | out => ([Processor.mkMessage out], None)
    end.
Proof.
  unfold Processor.ProcessMessage.
  rewrite (process_parts_spec d _ (Processor.Parts msg) 0 []). cbn [app].
  fold (Processor.parts_result d msg). destruct (Processor.parts_result d msg); reflexivity.
Qed.


Lemma parts_result_from_untargeted (d : Processor.Decompress) (lParts : Z) (ps : list bytes) :
  forall i,
    (forall j, (j < List.length ps)%nat ->
               Processor.isTarget d lParts (Z.of_nat (i + j)) = false) ->
    Processor.parts_result_from d lParts i ps = ps.
Proof.
  induction ps as [|p ps IH]; intros i H; [reflexivity|].
  cbn [Processor.parts_result_from]. unfold Processor.part_result.
  pose proof (H 0%nat ltac:(cbn; lia)) as H0. rewrite Nat.add_0_r in H0. rewrite H0.
  cbn [app]. f_equal. apply IH. intros j Hj.
  replace (S i + j)%nat with (i + S j)%nat by lia. apply H. cbn. lia.
Qed.

Lemma parts_result_from_length (d : Processor.Decompress) (lParts : Z) (ps : list bytes) :
  forall i, (List.length (Processor.parts_result_from d lParts i ps) <= List.length ps)%nat.
Proof.
  induction ps as [|p ps IH]; intro i; [apply le_n|].
  cbn [Processor.parts_result_from]. rewrite length_app. specialize (IH (S i)).
  unfold Processor.part_result.
  destruct (Processor.isTarget d lParts (Z.of_nat i)); [destruct (Processor.decomp d p)|];
    cbn [List.length] in *; lia.
Qed.

(** X23. [ProcessMessage] returns at most one message, and that message has
    no more parts than the message it was given.  When the configuration
    names parts and every index named lies outside the message (at or beyond
    its length, or below minus its length), a message that has parts is
    returned as it is. *)
Theorem ProcessMessage_never_grows :
  forall (d : Processor.Decompress) (msg : Processor.Message),
    (List.length (fst (Processor.ProcessMessage d msg)) <= 1)%nat /\
    Forall (fun out => (List.length (Processor.Parts out) <=
                        List.length (Processor.Parts msg))%nat)
      (fst (Processor.ProcessMessage d msg)) /\
    (Processor.ConfParts (Processor.conf d) <> [] ->
     Processor.Parts msg <> [] ->
     (forall t, In t (Processor.ConfParts (Processor.conf d)) ->
                t < - Z.of_nat (List.length (Processor.Parts msg)) \/
                Z.of_nat (List.length (Processor.Parts msg)) <= t) ->
     Processor.ProcessMessage d msg = ([msg], None)).
Proof.
  intros d msg. rewrite ProcessMessage_result.
  pose proof (parts_result_from_length d (Z.of_nat (List.length (Processor.Parts msg)))
                (Processor.Parts msg) 0) as Hlen.
  fold (Processor.parts_result d msg) in Hlen.
  split; [|split].
  - destruct (Processor.parts_result d msg); cbn; lia.
  - destruct (Processor.parts_result d msg) eqn:E; cbn [fst]; [constructor|].
    constructor; [exact Hlen|constructor].
  - intros Hconf Hparts Hout.
    assert (Hsame : Processor.parts_result d msg = Processor.Parts msg).
    { apply parts_result_from_untargeted. intros j Hj. cbn [Nat.add].
      unfold Processor.isTarget.
      destruct (Processor.ConfParts (Processor.conf d)) as [|t0 ts] eqn:Ec; [contradiction|].
      cbn [List.length Nat.eqb]. apply not_true_is_false. intro Hex.
      apply existsb_exists in Hex. destruct Hex as [t [Hin Ht]].
      specialize (Hout t Hin). apply orb_true_iff in Ht.
      destruct Ht as [Ht|Ht]; apply Z.eqb_eq in Ht; lia. }
    rewrite Hsame. destruct msg as [ps]. cbn in *. destruct ps; [contradiction|reflexivity].
Qed.

Lemma ProcessMessage_never_grows_witness :
  Processor.ProcessMessage
    (Processor.mkDecompress (Processor.mkDecompressConfig "gzip" [2; -3])
       (Processor.gzipDecompress example_gzip))
    (Processor.mkMessage [[Byte.x68]; [Byte.x69]]) =
  ([Processor.mkMessage [[Byte.x68]; [Byte.x69]]], None).
Proof.
  refine (proj2 (proj2 (ProcessMessage_never_grows
                          (Processor.mkDecompress (Processor.mkDecompressConfig "gzip" [2; -3])
                             (Processor.gzipDecompress example_gzip))
                          (Processor.mkMessage [[Byte.x68]; [Byte.x69]])))
            ltac:(discriminate) ltac:(discriminate) _).
  intros t [<-|[<-|[]]]; cbn; lia.
Defined.



Lemma parts_result_all_targets (d : Processor.Decompress) (lParts : Z) (ps : list bytes) :
  Processor.ConfParts (Processor.conf d) = [] ->
  forall i,
    Processor.parts_result_from d lParts i ps =
    flat_map (fun p => match Processor.decomp d p with
                       | inr q => [q]
                       | inl _ => []
                       end) ps.
Proof.
  intro Hconf. induction ps as [|p ps IH]; intro i; [reflexivity|].
  cbn [Processor.parts_result_from flat_map]. rewrite IH.
  unfold Processor.part_result, Processor.isTarget. rewrite Hconf. reflexivity.
Qed.



(** X26. Property R1 for whole messages: for a gzip reader and a compressor
    that meet [gzip_round_trip], the processor [NewDecompress] builds from the
    default configuration turns the message of the compressed payloads, when
    there is at least one, into the one message of the payloads, with a nil
    response. *)
Theorem ProcessMessage_round_trip :
  forall (gz : Processor.Gzip) (compress : Processor.Compressor) (payloads : list bytes),
    Processor.gzip_round_trip gz compress ->
    payloads <> [] ->
    exists d,
      Processor.NewDecompress gz Processor.NewDecompressConfig = inr d /\
      Processor.ProcessMessage d (Processor.mkMessage (map compress payloads)) =
        ([Processor.mkMessage payloads], None).
Proof.
  intros gz compress payloads Hgz Hne.
  exists (Processor.mkDecompress Processor.NewDecompressConfig (Processor.gzipDecompress gz)).
  split; [reflexivity|].
  rewrite ProcessMessage_result. unfold Processor.parts_result.
  rewrite (parts_result_all_targets
             (Processor.mkDecompress Processor.NewDecompressConfig (Processor.gzipDecompress gz))
             _ _ eq_refl).
  cbn [Processor.Parts Processor.decomp].
  assert (Hmap : flat_map (fun p => match Processor.gzipDecompress gz p with
                                    | inr q => [q]
                                    | inl _ => []
                                    end) (map compress payloads) = payloads).
  { clear Hne. induction payloads as [|b bs IH]; [reflexivity|].
    cbn [map flat_map]. rewrite IH.
    destruct (Hgz b) as [zr [Hopen [Hdata Hend]]].
    unfold Processor.gzipDecompress, Processor.Buffer_ReadFrom.
    rewrite Hopen, Hend, Hdata. reflexivity. }
  rewrite Hmap. destruct payloads; [contradiction|reflexivity].
Qed.

Lemma ProcessMessage_round_trip_witness :
  exists d,
    Processor.NewDecompress example_gzip Processor.NewDecompressConfig = inr d /\
    Processor.ProcessMessage d
      (Processor.mkMessage (map example_compress [[Byte.x68]; []; [Byte.x69; Byte.x21]])) =
      ([Processor.mkMessage [[Byte.x68]; []; [Byte.x69; Byte.x21]]], None).
Proof.
  exact (ProcessMessage_round_trip example_gzip example_compress
           [[Byte.x68]; []; [Byte.x69; Byte.x21]] example_gzip_round_trip
           ltac:(discriminate)).
Defined.
